(** * tip-checker: the appointment checker of [src/index.js]

    A shallow embedding of the four functions of the script
    ([getAllLocations], [getAllLocationIds], [getAvailableAppointments],
    [init]) and proofs of the properties its specification states.

    - Records stand for the JSON objects the script handles.
    - The host's built-ins the script calls but does not define (date
      formatting, date parsing) are the methods of the class [JsRuntime].
    - The network is a [World]: what each request settles to.
    - The fan-out of [getAvailableAppointments] runs under a schedule: the
      per-location tasks that have settled so far, in the order they did.
    - [Module Store] gives [getAllLocationIds] a second reading, on a heap of
      arrays, to state what the function leaves untouched. *)

From Stdlib Require Import ZArith Sorted.
From stdpp Require Import gmap strings list sorting.

Local Open Scope string_scope.
Local Open Scope list_scope.
Local Open Scope Z_scope.

(** ** Data model *)

(** A location record of the remote API: [{ id, name, state, ... }]. *)
Record Location := mkLocation {
  id : Z;
  name : string;
  state : string
}.

(** The state of a promise.  [Pending]: not settled; said of a request,
    one that never is (the transport hangs).  [Rejected] carries the
    reason. *)
Inductive promise (A : Type) :=
  | Pending
  | Fulfilled (a : A)
  | Rejected (reason : string).
Arguments Pending {A}.
Arguments Fulfilled {A} a.
Arguments Rejected {A} reason.

(** ** The location filter (index.js, lines 21-25) *)

(** [filter.includes(x)] on an array of strings. *)
Definition includes (xs : list string) (x : string) : bool :=
  bool_decide (x ∈ xs).

Definition getAllLocationIds (locations : list Location) (filter : list string)
  : list Z :=
  let filteredData :=
    List.filter (fun location => includes filter (state location)) locations in
  let locationIds := map (fun location => id location) filteredData in
  locationIds.

(** ** The host's built-ins

    The script formats and parses dates with the host's [Date], whose
    results depend on the engine's time-zone data and on its parser for
    strings that are not ISO 8601.  They are taken as an interface. *)
Class JsRuntime := {
  (** what a slot's [startTimestamp] / [endTimestamp] holds *)
  Timestamp : Type;
  (** [new Date(t).toLocaleString("en-US", { timeZone: "America/New_York" })] *)
  toLocaleString : Timestamp -> string;
  (** the time value of [new Date(s)], in milliseconds since the epoch;
      [None] is NaN, the time value of an invalid date *)
  Date_parse : string -> option Z
}.

(** A slot record of the remote API. *)
Record Slot `{JsRuntime} := mkSlot {
  locationId : Z;
  startTimestamp : Timestamp;
  endTimestamp : Timestamp
}.

(** The display form of a slot (index.js, lines 46-54). *)
Record Appointment := mkAppointment {
  location : string;
  start : string;
  end_ : string
}.

(** ** The network *)

(** What the two endpoints answer in one run.  A request settles to the
    parsed body, is rejected (the request fails, the body is not JSON, the
    body is not an array of records), or never settles.  The [k]-th slot
    request of the fan-out is told apart from the others, so that two
    requests for one identifier may be answered differently. *)
Record World `{JsRuntime} := mkWorld {
  locationsEndpoint : promise (list Location);
  slotsEndpoint : nat -> Z -> Z -> promise (list Slot)
}.

Section Program.
Context `{RT : JsRuntime}.

(** index.js, lines 8-12: one read, returned as it is. *)
Definition getAllLocations (w : World) : promise (list Location) :=
  locationsEndpoint w.

(** ** The appointment fetcher (index.js, lines 33-62) *)

(** The callback of [data.map], lines 44-55.  [locations.find] is
    [List.find]: the first element the predicate accepts. *)
Definition toAppointment (locations : list Location) (appointment : Slot)
  : Appointment :=
  let location :=
    List.find (fun loc => Z.eqb (id loc) (locationId appointment)) locations in
  {| location := match location with
                 | Some location => name location
                 | None => "Unknown"
                 end;
     start := toLocaleString (startTimestamp appointment);
     end_ := toLocaleString (endTimestamp appointment) |}.

(** The state the tasks of the fan-out share: the accumulator
    [allAppointments] they push to, the tasks whose body has run to its
    end, and the promise [Promise.all] returned. *)
Record fanout := mkFanout {
  allAppointments : list Appointment;
  fulfilled : list nat;
  all : promise unit
}.

Section FanOut.
Variable w : World.
Variable locations : list Location.
Variable locationIds : list Z.
Variable limit : Z.

(** [Promise.all] of an empty array is fulfilled at once. *)
Definition fanout_start : fanout :=
  {| allAppointments := [];
     fulfilled := [];
     all := if decide (length locationIds = 0%nat) then Fulfilled tt
            else Pending |}.

(** Task [k] settles: the body of the async callback of lines 37-58 runs
    from the answer of its request to its end.  The two awaits of the body
    come before any access to shared state, so the rest of the body, the
    map and the push, runs in one piece.  A rejection settles
    [Promise.all] if nothing has yet; the last fulfilment fulfils it.  A
    task settles once: an event naming no task, a task that has run or a
    request that hangs changes nothing. *)
Definition settle (st : fanout) (k : nat) : fanout :=
  match locationIds !! k with
  | None => st
  | Some locationId =>
    if decide (k ∈ fulfilled st) then st
    else
      match slotsEndpoint w k limit locationId with
      | Pending => st
      | Rejected reason =>
        {| allAppointments := allAppointments st;
           fulfilled := fulfilled st;
           all := match all st with
                  | Pending => Rejected reason
                  | settled => settled
                  end |}
      | Fulfilled data =>
        let availableAppointments := map (toAppointment locations) data in
        let fulfilled' := fulfilled st ++ [k] in
        {| allAppointments := allAppointments st ++ availableAppointments;
           fulfilled := fulfilled';
           all := match all st with
                  | Pending =>
                    if decide (length fulfilled' = length locationIds)
                    then Fulfilled tt else Pending
                  | settled => settled
                  end |}
      end
  end.

(** The shared state once the tasks of [schedule] have settled, in that
    order. *)
Definition run_fanout (schedule : list nat) : fanout :=
  foldl settle fanout_start schedule.

(** The function awaits [Promise.all] and returns the accumulator: the
    promise the call returned, as it is once the tasks of [schedule] have
    settled.  [Pending]: it has not settled yet. *)
Definition getAvailableAppointments (schedule : list nat)
  : promise (list Appointment) :=
  let st := run_fanout schedule in
  match all st with
  | Pending => Pending
  | Rejected reason => Rejected reason
  | Fulfilled _ => Fulfilled (allAppointments st)
  end.

(** The slots request [k] was answered with, if it was answered. *)
Definition answer (k : nat) : list Slot :=
  match locationIds !! k with
  | Some locationId =>
    match slotsEndpoint w k limit locationId with
    | Fulfilled data => data
    | _ => []
    end
  | None => []
  end.

(** The slots of all the answers, request after request. *)
Definition answers : list Slot :=
  concat (map answer (seq 0 (length locationIds))).

(** Request [k] exists and was answered with a body. *)
Definition answered (k : nat) : Prop :=
  exists locationId data,
    locationIds !! k = Some locationId
    /\ slotsEndpoint w k limit locationId = Fulfilled data.

(** Request [k] exists and was rejected. *)
Definition rejected (k : nat) : Prop :=
  exists locationId reason,
    locationIds !! k = Some locationId
    /\ slotsEndpoint w k limit locationId = Rejected reason.

(** What holds of the shared state whatever the schedule: a task runs to
    its end at most once and only on an answer, the accumulator holds the
    appointments of the tasks that have, in the order they finished, and
    [Promise.all] is fulfilled only when every task has. *)
Record fanout_inv (st : fanout) : Prop := {
  inv_once : NoDup (fulfilled st);
  inv_answered : forall k, k ∈ fulfilled st -> answered k;
  inv_pushed :
    allAppointments st
    = concat (map (fun k => map (toAppointment locations) (answer k))
                  (fulfilled st));
  inv_all :
    all st = Fulfilled tt -> length (fulfilled st) = length locationIds;
  inv_pending :
    all st = Pending -> (length (fulfilled st) < length locationIds)%nat
}.

End FanOut.

(** ** The driver (index.js, lines 68-92) *)

(** [x - y] on time values: NaN when either is. *)
Definition Date_minus (x y : option Z) : option Z :=
  match x, y with
  | Some x, Some y => Some (x - y)
  | _, _ => None
  end.

(** The comparator of line 85. *)
Definition byStart (a b : Appointment) : option Z :=
  Date_minus (Date_parse (start a)) (Date_parse (start b)).

(** [a.start <= b.start] as dates: false when either is invalid. *)
Definition start_le (a b : Appointment) : Prop :=
  match Date_parse (start a), Date_parse (start b) with
  | Some x, Some y => x <= y
  | _, _ => False
  end.

(** How [Array.prototype.sort] reads its comparator: NaN counts as [+0]. *)
Definition SortCompare {A} (comparefn : A -> A -> option Z) (x y : A) : Z :=
  match comparefn x y with
  | Some v => v
  | None => 0
  end.

(** [Array.prototype.sort]: a stable sort.  For a consistent comparator the
    language fixes the result, and every stable sort computes it; this one
    inserts each element before the first one it does not come after. *)
Fixpoint sort_insert {A} (comparefn : A -> A -> option Z) (x : A) (l : list A)
  : list A :=
  match l with
  | [] => [x]
  | y :: l' =>
    if decide (SortCompare comparefn x y <= 0) then x :: y :: l'
    else y :: sort_insert comparefn x l'
  end.

Definition Array_sort {A} (comparefn : A -> A -> option Z) (l : list A)
  : list A :=
  foldr (sort_insert comparefn) [] l.

(** A computation that prints: the lines on the console so far go in, the
    promise it ends on and the lines after it come out. *)
Definition Async (A : Type) : Type := list string -> promise A * list string.

Definition Async_ret {A} (a : A) : Async A := fun out => (Fulfilled a, out).

Definition Async_bind {A B} (m : Async A) (f : A -> Async B) : Async B :=
  fun out =>
    match m out with
    | (Fulfilled a, out') => f a out'
    | (Rejected reason, out') => (Rejected reason, out')
    | (Pending, out') => (Pending, out')
    end.

(** [await p]: go on with the value, throw the reason, or wait for ever. *)
Definition await {A} (p : promise A) : Async A := fun out => (p, out).

Definition console_log (s : string) : Async unit :=
  fun out => (Fulfilled tt, out ++ [s]).

(** [l.map(f)] for a callback called for what it prints: the array of
    [undefined] the call builds is dropped. *)
Fixpoint Array_each {A} (f : A -> Async unit) (l : list A) : Async unit :=
  match l with
  | [] => Async_ret tt
  | x :: l' => Async_bind (f x) (fun _ => Array_each f l')
  end.

Definition appointment_line (appointment : Appointment) : string :=
  "There is a TTP appointment available at " +:+ location appointment
    +:+ " on " +:+ start appointment +:+ "!".

Definition no_appointments : string := "No appointments found.".

(** Lines 81-91: what [init] does with the aggregate. *)
Definition report (appointments : list Appointment) : Async unit :=
  if decide (length appointments = 0%nat) then console_log no_appointments
  else
    Array_each (fun appointment => console_log (appointment_line appointment))
      (Array_sort byStart appointments).

Definition regions : list string := ["OH"; "KY"; "IN"; "IL"; "TN"].

Definition init (w : World) (schedule : list nat) : Async unit :=
  Async_bind (console_log "Checking for appointments...") (fun _ =>
  Async_bind (await (getAllLocations w)) (fun locations =>
  let locationIds := getAllLocationIds locations regions in
  Async_bind
    (await (getAvailableAppointments w locations locationIds 1 schedule))
    (fun appointments => report appointments))).

(** [console.clear()]: on a terminal the screen is wiped; when the output
    is no terminal, nothing happens. *)
Definition console_clear (tty : bool) : Async unit :=
  fun out => (Fulfilled tt, if tty then [] else out).

(** Lines 94-96, the script itself.  The call of [init] is not awaited and
    nothing follows it: the run ends as [init] does. *)
Definition main (tty : bool) (w : World) (schedule : list nat) : Async unit :=
  Async_bind (console_clear tty) (fun _ =>
  Async_bind (console_log "Starting appointment checker...") (fun _ =>
  init w schedule)).

End Program.

(** ** The location filter on a heap

    The arrays the filter is handed are objects on a heap, and a callee
    could write to them.  This second reading of lines 21-25 takes
    references and threads the heap, the console and the list of requests
    sent, so that what the function leaves alone can be stated. *)
Module Store.

Inductive object :=
  | LocationArray (elems : list Location)
  | StringArray (elems : list string)
  | NumberArray (elems : list Z).

Record store := mkStore {
  heap : gmap nat object;
  console : list string;
  requests : list string
}.

(** A new object gets an address no object has. *)
Definition alloc (o : object) (s : store) : nat * store :=
  let r := fresh (dom (heap s)) in
  (r, {| heap := <[r := o]> (heap s);
         console := console s;
         requests := requests s |}).

(** [filter.includes(x)] for a string [x]: no element of an array of
    numbers or of records is a string equal to [x].  [None]: [filter] is
    no array, and the call throws. *)
Definition includes_at (h : gmap nat object) (filter : nat) (x : string)
  : option bool :=
  match h !! filter with
  | Some (StringArray elems) => Some (includes elems x)
  | Some (LocationArray _) | Some (NumberArray _) => Some false
  | None => None
  end.

(** [elems.filter(p)] for a callback that may throw: the callback runs on
    each element in turn, and the first throw ends the call. *)
Fixpoint Array_filter {A} (p : A -> option bool) (elems : list A)
  : option (list A) :=
  match elems with
  | [] => Some []
  | x :: elems' =>
    match p x with
    | None => None
    | Some keep =>
      match Array_filter p elems' with
      | None => None
      | Some kept => Some (if keep then x :: kept else kept)
      end
    end
  end.

(** [None]: the call throws a TypeError. *)
Definition getAllLocationIds (locations filter : nat) (s : store)
  : option nat * store :=
  match heap s !! locations with
  | Some (LocationArray elems) =>
    match Array_filter
            (fun location => includes_at (heap s) filter (state location))
            elems with
    | None => (None, s)
    | Some kept =>
      let '(filteredData, s1) := alloc (LocationArray kept) s in
      let '(locationIds, s2) :=
        alloc (NumberArray (map (fun location => id location) kept)) s1 in
      (Some locationIds, s2)
    end
  | _ => (None, s)
  end.

(** The state after [n] calls in a row. *)
Fixpoint after_calls (n : nat) (locations filter : nat) (s : store) : store :=
  match n with
  | O => s
  | S n' => after_calls n' locations filter (getAllLocationIds locations filter s).2
  end.

(** What a call returns, read off the heap it leaves. *)
Definition returned (locations filter : nat) (s : store) : option object :=
  let '(r, s') := getAllLocationIds locations filter s in
  match r with
  | Some r => heap s' !! r
  | None => None
  end.

End Store.

(** ** Sample data

    The locations of the specification's scenario, and the fragment of a
    host in US Eastern time that the examples below use: three instants of
    14 November 2023 and a slot record with no timestamp. *)
Definition Cincinnati := mkLocation 1 "Cincinnati" "OH".
Definition Louisville := mkLocation 2 "Louisville" "KY".

Module Sample.

Inductive stamp :=
  | At_1699996400000
  | At_1700000000000
  | At_1700003600000
  | Missing.

Definition format (t : stamp) : string :=
  match t with
  | At_1699996400000 => "11/14/2023, 4:13:20 PM"
  | At_1700000000000 => "11/14/2023, 5:13:20 PM"
  | At_1700003600000 => "11/14/2023, 6:13:20 PM"
  | Missing => "Invalid Date"
  end.

Definition parse (s : string) : option Z :=
  if String.eqb s "11/14/2023, 4:13:20 PM" then Some 1699996400000
  else if String.eqb s "11/14/2023, 5:13:20 PM" then Some 1700000000000
  else if String.eqb s "11/14/2023, 6:13:20 PM" then Some 1700003600000
  else None.

#[global] Instance host : JsRuntime :=
  {| Timestamp := stamp; toLocaleString := format; Date_parse := parse |}.

(** One slot at Cincinnati, from five to six o'clock. *)
Definition slot_5pm : Slot := mkSlot host 1 At_1700000000000 At_1700003600000.
Definition slot_4pm : Slot := mkSlot host 2 At_1699996400000 At_1700000000000.
Definition slot_6pm : Slot := mkSlot host 1 At_1700003600000 At_1700003600000.
Definition slot_undated : Slot := mkSlot host 2 Missing Missing.
Definition slot_elsewhere : Slot := mkSlot host 7 At_1700000000000 At_1700003600000.

(** Every request is answered; request [k] finds what [answers] lists. *)
Definition world (locations : list Location) (answers : list (list Slot))
  : World :=
  {| locationsEndpoint := Fulfilled locations;
     slotsEndpoint := fun k _ _ =>
       match answers !! k with
       | Some data => Fulfilled data
       | None => Fulfilled []
       end |}.

(** The second slot request fails. *)
Definition world_down (locations : list Location) (data : list Slot) : World :=
  {| locationsEndpoint := Fulfilled locations;
     slotsEndpoint := fun k _ _ =>
       match k with
       | 1%nat => Rejected "fetch failed"
       | _ => Fulfilled data
       end |}.

(** A location whose display name is the word the join falls back to. *)
Definition Unknown_office := mkLocation 1 "Unknown" "OH".

(** A location outside the five regions the driver asks for. *)
Definition Boston := mkLocation 3 "Boston" "MA".

Definition offices : list Location := [Cincinnati; Louisville].

(** Runs of the examples: the network, and the appointments made. *)
Definition world_join : World := world offices [[slot_6pm]; [slot_elsewhere]].
Definition at_6pm : Appointment := toAppointment offices slot_6pm.
Definition at_5pm : Appointment := toAppointment offices slot_5pm.
Definition at_4pm : Appointment := toAppointment offices slot_4pm.
Definition undated : Appointment := toAppointment offices slot_undated.
Definition elsewhere : Appointment := toAppointment offices slot_elsewhere.

Definition world_renamed : World := world [Unknown_office] [[slot_5pm]].
Definition renamed : Appointment := toAppointment [Unknown_office] slot_5pm.

Definition world_second_down : World := world_down offices [slot_6pm].

Definition world_busy : World :=
  world offices [[slot_6pm; slot_5pm]; [slot_4pm]].

Definition world_undated : World :=
  world offices [[slot_6pm; slot_undated; slot_5pm]; []].

Definition world_idle : World := world offices [[]; []].

Definition world_far : World := world [Boston] [].

(** As [world_idle], but with slots on offer where nobody asks: for a
    third request, and for other limits. *)
Definition world_far_idle : World :=
  {| locationsEndpoint := Fulfilled offices;
     slotsEndpoint := fun k limit _ =>
       match k with
       | 0%nat | 1%nat => if decide (limit = 1) then Fulfilled []
                          else Fulfilled [slot_4pm]
       | _ => Fulfilled [slot_5pm]
       end |}.

(** The first slot request never settles. *)
Definition world_hanging : World :=
  {| locationsEndpoint := Fulfilled offices;
     slotsEndpoint := fun k _ _ =>
       match k with
       | 0%nat => Pending
       | _ => Fulfilled [slot_4pm]
       end |}.

(** The locations cannot be read. *)
Definition world_offline : World :=
  {| locationsEndpoint := Rejected "fetch failed";
     slotsEndpoint := fun _ _ _ => Fulfilled [slot_4pm] |}.

(** Both slot requests fail, each for its own reason. *)
Definition world_both_down : World :=
  {| locationsEndpoint := Fulfilled offices;
     slotsEndpoint := fun k _ _ =>
       match k with
       | 0%nat => Rejected "timeout"
       | _ => Rejected "fetch failed"
       end |}.

(** A second office with the identifier of the first. *)
Definition Cincinnati_annex := mkLocation 1 "Cincinnati Annex" "KY".

(** A heap holding the scenario's collection at address 0 and its
    allow-list at address 1, with one line on the console already. *)
Definition store0 : Store.store :=
  {| Store.heap :=
       <[0%nat := Store.LocationArray [Cincinnati; Louisville]]>
         (<[1%nat := Store.StringArray ["OH"]]> ∅);
     Store.console := ["Starting appointment checker..."];
     Store.requests := [] |}.

End Sample.

(** * Properties *)

(** ** The location filter *)

Lemma includes_spec (xs : list string) (x : string) :
  includes xs x = true <-> x ∈ xs.
Proof. unfold includes. apply bool_decide_eq_true. Qed.

Lemma getAllLocationIds_elem (locations : list Location) (filter : list string)
    (i : Z) :
  i ∈ getAllLocationIds locations filter <->
  exists location,
    location ∈ locations /\ state location ∈ filter /\ id location = i.
Proof.
  unfold getAllLocationIds. rewrite list_elem_of_In, in_map_iff. split.
  - intros (location & Hid & Hin). apply filter_In in Hin as [Hin Hkeep].
    exists location. rewrite list_elem_of_In, <- includes_spec. auto.
  - intros (location & Hin & Hstate & Hid). exists location. split; [done|].
    apply filter_In. rewrite <- list_elem_of_In, includes_spec. auto.
Qed.

(** C1: every identifier the filter returns is the id of a location of the
    collection whose state is in the allow-list, the id of every such
    location is returned, and on the scenario's two locations with the
    allow-list ["OH"] the result is [1]. *)
Theorem getAllLocationIds_sound_complete :
  (forall (locations : list Location) (filter : list string),
     (forall i, i ∈ getAllLocationIds locations filter ->
        exists location,
          location ∈ locations /\ state location ∈ filter /\ id location = i)
     /\ (forall location, location ∈ locations -> state location ∈ filter ->
           id location ∈ getAllLocationIds locations filter))
  /\ getAllLocationIds [Cincinnati; Louisville] ["OH"] = [1].
Proof.
  split; [|by vm_compute].
  intros locations filter. split.
  - intros i Hi. by apply getAllLocationIds_elem.
  - intros location Hin Hstate. apply getAllLocationIds_elem. eauto.
Qed.

(** C6: the identifiers come out in the order their locations have in the
    collection: they are the ids of a subsequence of the collection, and so
    a subsequence of the collection's ids. *)
Theorem getAllLocationIds_order (locations : list Location)
    (filter : list string) :
  (exists kept,
     sublist kept locations
     /\ getAllLocationIds locations filter = map (fun location => id location) kept)
  /\ sublist (getAllLocationIds locations filter)
             (map (fun location => id location) locations).
Proof.
  unfold getAllLocationIds. split.
  - eexists. split; [|reflexivity].
    induction locations as [|location locations IH]; simpl; [constructor|].
    destruct (includes filter (state location)).
    + by apply sublist_skip.
    + by apply sublist_cons.
  - induction locations as [|location locations IH]; simpl; [constructor|].
    destruct (includes filter (state location)); simpl.
    + by apply sublist_skip.
    + by apply sublist_cons.
Qed.

(** ** The location filter on a heap *)

Section StoreFacts.

Lemma alloc_fresh (o : Store.object) (s : Store.store) :
  Store.heap s !! (Store.alloc o s).1 = None.
Proof. simpl. apply not_elem_of_dom, is_fresh. Qed.

Lemma alloc_lookup (o : Store.object) (s : Store.store) :
  Store.heap (Store.alloc o s).2 !! (Store.alloc o s).1 = Some o.
Proof. simpl. apply lookup_insert_eq. Qed.

Lemma alloc_frame (o : Store.object) (s : Store.store) (r : nat) :
  is_Some (Store.heap s !! r) -> Store.heap (Store.alloc o s).2 !! r = Store.heap s !! r.
Proof.
  intros [o' Hr]. simpl. apply lookup_insert_ne. intros <-.
  pose proof (alloc_fresh o s) as Hfresh. simpl in Hfresh. congruence.
Qed.

Lemma Array_filter_total {A} (p : A -> bool) (elems : list A) :
  Store.Array_filter (fun x => Some (p x)) elems = Some (List.filter p elems).
Proof.
  induction elems as [|x elems IH]; simpl; [done|].
  rewrite IH. by destruct (p x).
Qed.

(** On arrays of the expected kinds the call returns, and what it does is
    two allocations. *)
Lemma getAllLocationIds_run (locations filter : nat) (s : Store.store)
    (elems : list Location) (allow : list string) :
  Store.heap s !! locations = Some (Store.LocationArray elems) ->
  Store.heap s !! filter = Some (Store.StringArray allow) ->
  let kept := List.filter (fun location => includes allow (state location)) elems in
  let s1 := (Store.alloc (Store.LocationArray kept) s).2 in
  let ids := Store.NumberArray (getAllLocationIds elems allow) in
  Store.getAllLocationIds locations filter s = (Some (Store.alloc ids s1).1, (Store.alloc ids s1).2).
Proof.
  intros Hl Hf. unfold Store.getAllLocationIds. rewrite Hl.
  unfold Store.includes_at. rewrite Hf. by rewrite Array_filter_total.
Qed.

Lemma getAllLocationIds_keeps (locations filter : nat) (s : Store.store)
    (r : nat) :
  is_Some (Store.heap s !! r) ->
  Store.heap (Store.getAllLocationIds locations filter s).2 !! r
  = Store.heap s !! r.
Proof.
  intros Hr. unfold Store.getAllLocationIds.
  destruct (Store.heap s !! locations) as [[elems| |]|]; try done.
  destruct (Store.Array_filter _ elems) as [kept|]; [|done].
  set (s1 := Store.alloc (Store.LocationArray kept) s).
  change (Store.heap (Store.alloc (Store.NumberArray (map (fun l => id l) kept)) s1.2).2 !! r
          = Store.heap s !! r).
  rewrite alloc_frame; unfold s1; rewrite alloc_frame; done.
Qed.

Lemma getAllLocationIds_io (locations filter : nat) (s : Store.store) :
  Store.console (Store.getAllLocationIds locations filter s).2 = Store.console s
  /\ Store.requests (Store.getAllLocationIds locations filter s).2
     = Store.requests s.
Proof.
  unfold Store.getAllLocationIds.
  destruct (Store.heap s !! locations) as [[elems| |]|]; try done.
  destruct (Store.Array_filter _ elems) as [kept|]; done.
Qed.

(** One call on arrays of the expected kinds, in full. *)
Lemma getAllLocationIds_call (locations filter : nat)
    (s : Store.store) (elems : list Location) (allow : list string) :
  Store.heap s !! locations = Some (Store.LocationArray elems) ->
  Store.heap s !! filter = Some (Store.StringArray allow) ->
  exists (result : nat) (s' : Store.store),
    Store.getAllLocationIds locations filter s = (Some result, s')
    /\ Store.console s' = Store.console s
    /\ Store.requests s' = Store.requests s
    /\ Store.heap s' !! locations = Some (Store.LocationArray elems)
    /\ Store.heap s' !! filter = Some (Store.StringArray allow)
    /\ (forall r, is_Some (Store.heap s !! r) ->
          Store.heap s' !! r = Store.heap s !! r)
    /\ Store.heap s !! result = None
    /\ Store.heap s' !! result
       = Some (Store.NumberArray (getAllLocationIds elems allow)).
Proof.
  intros Hl Hf.
  pose proof (getAllLocationIds_run locations filter s elems allow Hl Hf) as Hrun.
  cbv zeta in Hrun.
  pose proof (getAllLocationIds_io locations filter s) as [Hc Hq].
  pose proof (getAllLocationIds_keeps locations filter s) as Hkeep.
  rewrite Hrun in Hc, Hq, Hkeep.
  set (s1 := (Store.alloc (Store.LocationArray _) s).2) in *.
  set (ids := Store.NumberArray _) in *.
  exists (Store.alloc ids s1).1, (Store.alloc ids s1).2.
  split; [exact Hrun|]. split; [exact Hc|]. split; [exact Hq|].
  split; [rewrite <- Hl; apply Hkeep; by rewrite Hl|].
  split; [rewrite <- Hf; apply Hkeep; by rewrite Hf|].
  split; [exact Hkeep|].
  split; [|apply alloc_lookup].
  pose proof (alloc_fresh ids s1) as Hfresh.
  destruct (Store.heap s !! (Store.alloc ids s1).1) eqn:Hold; [|done].
  assert (Store.heap s1 !! (Store.alloc ids s1).1
          = Store.heap s !! (Store.alloc ids s1).1) as Hsame.
  { apply alloc_frame. by rewrite Hold. }
  congruence.
Qed.

End StoreFacts.

(** C8: called on an array of locations and an array of strings, the
    filter prints nothing and sends no request, leaves both arrays and
    every other object of the heap as they were, and returns an array that
    did not exist before the call. *)
Theorem getAllLocationIds_no_side_effect (locations filter : nat)
    (s : Store.store) (elems : list Location) (allow : list string) :
  Store.heap s !! locations = Some (Store.LocationArray elems) ->
  Store.heap s !! filter = Some (Store.StringArray allow) ->
  exists (result : nat) (s' : Store.store),
    Store.getAllLocationIds locations filter s = (Some result, s')
    /\ Store.console s' = Store.console s
    /\ Store.requests s' = Store.requests s
    /\ Store.heap s' !! locations = Some (Store.LocationArray elems)
    /\ Store.heap s' !! filter = Some (Store.StringArray allow)
    /\ (forall r, is_Some (Store.heap s !! r) ->
          Store.heap s' !! r = Store.heap s !! r)
    /\ Store.heap s !! result = None
    /\ Store.heap s' !! result
       = Some (Store.NumberArray (getAllLocationIds elems allow)).
Proof. apply getAllLocationIds_call. Qed.

Lemma getAllLocationIds_no_side_effect_witness :
  Store.heap Sample.store0 !! 0%nat
    = Some (Store.LocationArray [Cincinnati; Louisville])
  /\ Store.heap Sample.store0 !! 1%nat = Some (Store.StringArray ["OH"])
  /\ exists (result : nat) (s' : Store.store),
       Store.getAllLocationIds 0 1 Sample.store0 = (Some result, s')
       /\ Store.console s' = Store.console Sample.store0
       /\ Store.requests s' = Store.requests Sample.store0
       /\ Store.heap s' !! 0%nat
          = Some (Store.LocationArray [Cincinnati; Louisville])
       /\ Store.heap s' !! 1%nat = Some (Store.StringArray ["OH"])
       /\ (forall r, is_Some (Store.heap Sample.store0 !! r) ->
             Store.heap s' !! r = Store.heap Sample.store0 !! r)
       /\ Store.heap Sample.store0 !! result = None
       /\ Store.heap s' !! result
          = Some (Store.NumberArray
                    (getAllLocationIds [Cincinnati; Louisville] ["OH"])).
Proof.
  split; [reflexivity|]. split; [reflexivity|].
  apply (getAllLocationIds_no_side_effect 0 1 Sample.store0
           [Cincinnati; Louisville] ["OH"]); reflexivity.
Defined.

(** C7: however many calls came before, a call on the same two arrays
    returns an array with the same elements in the same order, the one the
    filter computes from the contents of the two arrays. *)
Theorem getAllLocationIds_repeatable (locations filter : nat)
    (s : Store.store) (elems : list Location) (allow : list string)
    (n : nat) :
  Store.heap s !! locations = Some (Store.LocationArray elems) ->
  Store.heap s !! filter = Some (Store.StringArray allow) ->
  Store.returned locations filter (Store.after_calls n locations filter s)
  = Some (Store.NumberArray (getAllLocationIds elems allow)).
Proof.
  revert s. induction n as [|n IH]; intros s Hl Hf; simpl.
  - destruct (getAllLocationIds_call locations filter s elems allow Hl Hf)
      as (result & s' & Hrun & _ & _ & _ & _ & _ & _ & Hres).
    unfold Store.returned. by rewrite Hrun.
  - destruct (getAllLocationIds_call locations filter s elems allow Hl Hf)
      as (result & s' & Hrun & _ & _ & Hl' & Hf' & _).
    rewrite Hrun. simpl. by apply IH.
Qed.

Lemma getAllLocationIds_repeatable_witness :
  Store.heap Sample.store0 !! 0%nat
    = Some (Store.LocationArray [Cincinnati; Louisville])
  /\ Store.heap Sample.store0 !! 1%nat = Some (Store.StringArray ["OH"])
  /\ Store.returned 0 1 (Store.after_calls 3 0 1 Sample.store0)
     = Some (Store.NumberArray
               (getAllLocationIds [Cincinnati; Louisville] ["OH"])).
Proof.
  split; [reflexivity|]. split; [reflexivity|].
  apply (getAllLocationIds_repeatable 0 1 Sample.store0
           [Cincinnati; Louisville] ["OH"] 3); reflexivity.
Defined.

(** ** The fan-out *)

Section FanOutFacts.
Context `{RT : JsRuntime}.
Variable w : World.
Variable locations : list Location.
Variable locationIds : list Z.
Variable limit : Z.

Local Abbreviation step := (settle w locations locationIds limit).
Local Abbreviation run := (run_fanout w locations locationIds limit).
Local Abbreviation inv := (fanout_inv w locations locationIds limit).
Local Abbreviation slots := (answer w locationIds limit).

Lemma fanout_start_inv : inv (fanout_start locationIds).
Proof.
  split; simpl.
  - constructor.
  - intros k Hk. by apply elem_of_nil in Hk.
  - done.
  - by destruct (decide (length locationIds = 0%nat)).
  - destruct (decide (length locationIds = 0%nat)); [done|]. lia.
Qed.

(** When as many tasks have run as there are, each has, once. *)
Lemma fulfilled_complete (done : list nat) :
  NoDup done ->
  (forall k, k ∈ done -> answered w locationIds limit k) ->
  length done = length locationIds ->
  done ≡ₚ seq 0 (length locationIds).
Proof.
  intros Honce Hans Hlen.
  apply submseteq_length_Permutation.
  - apply NoDup_submseteq; [done|].
    intros k (locationId & data & Hk & _)%Hans.
    apply elem_of_seq. apply lookup_lt_Some in Hk. lia.
  - rewrite length_seq. lia.
Qed.

Lemma settle_inv (st : fanout) (k : nat) :
  inv st -> inv (step st k).
Proof.
  intros [Honce Hans Hpush Hall Hpend]. unfold settle.
  destruct (locationIds !! k) as [locationId|] eqn:Hk; [|by split].
  destruct (decide (k ∈ fulfilled st)) as [Hin|Hnew]; [by split|].
  destruct (slotsEndpoint w k limit locationId) as [|data|reason] eqn:Hreq;
    [by split| |].
  - split; simpl.
    + apply NoDup_app. split; [done|]. split; [|apply NoDup_singleton].
      intros k' Hk' ->%list_elem_of_singleton. done.
    + intros k' [Hk'| ->%list_elem_of_singleton]%elem_of_app; [by apply Hans|].
      by exists locationId, data.
    + rewrite map_app, concat_app, <- Hpush. simpl.
      unfold answer. rewrite Hk, Hreq. by rewrite app_nil_r.
    + destruct (all st) as [|[]|reason] eqn:Hst; [|exfalso|done].
      * destruct (decide _) as [Hlast|]; [|done]. intros _. exact Hlast.
      * apply Hnew. rewrite (fulfilled_complete _ Honce Hans (Hall eq_refl)).
        apply elem_of_seq. apply lookup_lt_Some in Hk. lia.
    + rewrite length_app. simpl.
      destruct (all st) as [|[]|reason] eqn:Hst; [|done..].
      destruct (decide _) as [|Hmore]; [done|]. intros _.
      simpl in Hmore. specialize (Hpend eq_refl). lia.
  - split; simpl; try done.
    + destruct (all st) as [|[]|reason'] eqn:Hst; [done|by auto|done].
    + by destruct (all st) as [|[]|reason'].
Qed.

Lemma foldl_settle_inv (schedule : list nat) (st : fanout) :
  inv st -> inv (foldl step st schedule).
Proof.
  revert st. induction schedule as [|k schedule IH]; intros st Hst; [done|].
  simpl. by apply IH, settle_inv.
Qed.

Lemma run_fanout_inv (schedule : list nat) : inv (run schedule).
Proof. apply foldl_settle_inv, fanout_start_inv. Qed.

(** A settled promise stays as it is. *)
Lemma settle_settled (st : fanout) (k : nat) :
  all st <> Pending -> all (step st k) = all st.
Proof.
  intros Hst. unfold settle.
  destruct (locationIds !! k) as [locationId|]; [|done].
  destruct (decide (k ∈ fulfilled st)); [done|].
  destruct (slotsEndpoint w k limit locationId); simpl; [done| |];
    by destruct (all st).
Qed.

Lemma foldl_settle_settled (schedule : list nat) (st : fanout) :
  all st <> Pending -> all (foldl step st schedule) = all st.
Proof.
  revert st. induction schedule as [|k schedule IH]; intros st Hst; [done|].
  simpl. rewrite IH; rewrite settle_settled; done.
Qed.

Section Rejection.
Variables (k : nat) (locationId : Z) (reason : string).
Hypothesis Hk : locationIds !! k = Some locationId.
Hypothesis Hreq : slotsEndpoint w k limit locationId = Rejected reason.

Lemma rejected_not_answered : ~ answered w locationIds limit k.
Proof. intros (locationId' & data & Hk' & Hreq'). congruence. Qed.

(** While a request is rejected, [Promise.all] cannot be fulfilled. *)
Lemma rejected_never_fulfilled (st : fanout) :
  inv st -> all st <> Fulfilled tt.
Proof.
  intros [Honce Hans _ Hall _] Hst. apply rejected_not_answered, Hans.
  rewrite (fulfilled_complete _ Honce Hans (Hall Hst)).
  apply elem_of_seq. apply lookup_lt_Some in Hk. lia.
Qed.

(** When the task of a rejected request settles, so does [Promise.all]. *)
Lemma rejected_settles (st : fanout) :
  inv st -> all (step st k) <> Pending.
Proof.
  intros Hst. unfold settle. rewrite Hk.
  destruct (decide (k ∈ fulfilled st)) as [Hin|_].
  - destruct rejected_not_answered. by apply (inv_answered _ _ _ _ _ Hst).
  - rewrite Hreq. simpl. by destruct (all st).
Qed.

Lemma rejected_run (schedule : list nat) :
  (forall appointments,
     getAvailableAppointments w locations locationIds limit schedule
     <> Fulfilled appointments)
  /\ (k ∈ schedule ->
      exists reason',
        getAvailableAppointments w locations locationIds limit schedule
        = Rejected reason').
Proof.
  unfold getAvailableAppointments.
  pose proof (rejected_never_fulfilled _ (run_fanout_inv schedule)) as Hnever.
  split.
  - intros appointments. by destruct (all (run schedule)) as [|[]|].
  - intros (before & after & ->)%list_elem_of_split.
    unfold run_fanout in *. rewrite foldl_app in *. simpl in *.
    set (st := foldl step (fanout_start locationIds) before) in *.
    assert (inv st) as Hst by apply foldl_settle_inv, fanout_start_inv.
    pose proof (rejected_settles st Hst) as Hsettled.
    rewrite foldl_settle_settled in * by done.
    destruct (all (step st k)) as [|[]|reason']; [done|done|by eexists].
Qed.

End Rejection.

Lemma concat_Permutation {A} (l1 l2 : list (list A)) :
  l1 ≡ₚ l2 -> concat l1 ≡ₚ concat l2.
Proof.
  induction 1 as [|x l1 l2 _ IH|x y l|l1 l2 l3 _ IH1 _ IH2]; simpl.
  - done.
  - by rewrite IH.
  - rewrite !app_assoc. by rewrite (Permutation_app_comm x y).
  - by rewrite IH1.
Qed.

(** A fulfilled call: every request was answered and the aggregate holds
    the appointments of every answer, in the order the tasks finished. *)
Lemma fulfilled_run (schedule : list nat) (appointments : list Appointment) :
  getAvailableAppointments w locations locationIds limit schedule
  = Fulfilled appointments ->
  (forall k, (k < length locationIds)%nat -> answered w locationIds limit k)
  /\ appointments
     ≡ₚ map (toAppointment locations) (answers w locationIds limit).
Proof.
  unfold getAvailableAppointments.
  pose proof (run_fanout_inv schedule) as [Honce Hans Hpush Hall _].
  destruct (all (run schedule)) as [|[]|]; [done| |done].
  intros [= <-].
  pose proof (fulfilled_complete _ Honce Hans (Hall eq_refl)) as Hperm.
  split.
  - intros k Hk. apply Hans. rewrite Hperm. apply elem_of_seq. lia.
  - rewrite Hpush. unfold answers. rewrite concat_map, map_map.
    apply concat_Permutation. by rewrite Hperm.
Qed.

(** The tasks that have run to their end are never forgotten. *)
Lemma settle_grows (st : fanout) (k k' : nat) :
  k' ∈ fulfilled st -> k' ∈ fulfilled (step st k).
Proof.
  intros Hk'. unfold settle.
  destruct (locationIds !! k) as [locationId|]; [|done].
  destruct (decide (k ∈ fulfilled st)); [done|].
  destruct (slotsEndpoint w k limit locationId); simpl; [done| |done].
  apply elem_of_app. by left.
Qed.

Lemma foldl_settle_grows (schedule : list nat) (st : fanout) (k' : nat) :
  k' ∈ fulfilled st -> k' ∈ fulfilled (foldl step st schedule).
Proof.
  revert st. induction schedule as [|k schedule IH]; intros st Hk'; [done|].
  simpl. by apply IH, settle_grows.
Qed.

Lemma settle_answered (st : fanout) (k : nat) :
  answered w locationIds limit k -> k ∈ fulfilled (step st k).
Proof.
  intros (locationId & data & Hk & Hreq). unfold settle. rewrite Hk.
  destruct (decide (k ∈ fulfilled st)); [done|]. rewrite Hreq. simpl.
  apply elem_of_app. right. by left.
Qed.

(** The call does return: when every request is answered, it is fulfilled
    once every task has settled. *)
Lemma answered_run (schedule : list nat) :
  (forall k, (k < length locationIds)%nat -> answered w locationIds limit k) ->
  (forall k, (k < length locationIds)%nat -> k ∈ schedule) ->
  exists appointments,
    getAvailableAppointments w locations locationIds limit schedule
    = Fulfilled appointments.
Proof.
  intros Hans Hsched. unfold getAvailableAppointments.
  assert (forall st before reason',
            all st <> Rejected reason' ->
            all (foldl step st before) <> Rejected reason') as Hnever.
  { intros st before reason'. revert st.
    induction before as [|k before IH]; intros st Hst; [done|].
    simpl. apply IH. unfold settle.
    destruct (locationIds !! k) as [locationId|] eqn:Hk; [|done].
    destruct (decide (k ∈ fulfilled st)); [done|].
    destruct (Hans k) as (locationId' & data & Hk' & Hreq).
    { by apply lookup_lt_Some in Hk. }
    assert (locationId' = locationId) as -> by congruence.
    rewrite Hreq. simpl. destruct (all st) as [|[]|]; [|done..].
    by destruct (decide _). }
  assert (forall k, (k < length locationIds)%nat -> k ∈ fulfilled (run schedule))
    as Hall.
  { intros k Hk. destruct (list_elem_of_split _ _ (Hsched k Hk))
      as (before & after & ->).
    unfold run_fanout. rewrite foldl_app. simpl.
    by apply foldl_settle_grows, settle_answered, Hans. }
  pose proof (run_fanout_inv schedule) as [Honce _ _ _ Hpend].
  destruct (all (run schedule)) as [|[]|reason'] eqn:Hst.
  - specialize (Hpend eq_refl).
    assert (seq 0 (length locationIds) ⊆+ fulfilled (run schedule)) as Hsub.
    { apply NoDup_submseteq; [apply NoDup_seq|].
      intros k Hk%elem_of_seq. apply Hall. lia. }
    apply submseteq_length in Hsub. rewrite length_seq in Hsub. lia.
  - by eexists.
  - destruct (Hnever (fanout_start locationIds) schedule reason'); [|done].
    unfold fanout_start. simpl. by destruct (decide _).
Qed.

(** Every appointment of the aggregate was made from a slot of an answer. *)
Lemma aggregate_from_slot (schedule : list nat)
    (appointments : list Appointment) (a : Appointment) :
  getAvailableAppointments w locations locationIds limit schedule
  = Fulfilled appointments ->
  a ∈ appointments ->
  exists k slot, slot ∈ slots k /\ a = toAppointment locations slot.
Proof.
  unfold getAvailableAppointments.
  pose proof (run_fanout_inv schedule) as [_ _ Hpush _ _].
  destruct (all (run schedule)) as [|[]|]; [done| |done].
  intros [= <-]. rewrite Hpush.
  rewrite list_elem_of_In, in_concat.
  intros (l & (k & <- & _)%in_map_iff & (slot & <- & Hslot)%in_map_iff).
  exists k, slot. by rewrite list_elem_of_In.
Qed.

(** With no identifier there is no task, and nothing to wait for. *)
Lemma empty_run (schedule : list nat) :
  locationIds = [] ->
  getAvailableAppointments w locations locationIds limit schedule
  = Fulfilled [].
Proof.
  intros ->. unfold getAvailableAppointments, run_fanout.
  assert (foldl (settle w locations [] limit) (fanout_start []) schedule
          = fanout_start []) as ->; [|done].
  generalize (fanout_start []).
  induction schedule as [|k schedule IH]; intros st; [done|].
  simpl. unfold settle at 2. by rewrite lookup_nil.
Qed.

End FanOutFacts.

(** The join of line 45, and what the fall-back of line 47 makes of it. *)
Lemma toAppointment_location `{RT : JsRuntime} (locations : list Location)
    (slot : Slot) :
  match List.find (fun loc => Z.eqb (id loc) (locationId slot)) locations with
  | Some found =>
    found ∈ locations /\ id found = locationId slot
    /\ location (toAppointment locations slot) = name found
  | None =>
    (forall loc, loc ∈ locations -> id loc <> locationId slot)
    /\ location (toAppointment locations slot) = "Unknown"
  end.
Proof.
  unfold toAppointment. simpl.
  destruct (List.find _ locations) as [found|] eqn:Hfind.
  - apply find_some in Hfind as [Hin Heq].
    rewrite list_elem_of_In. split; [done|]. split; [lia|done].
  - split; [|done]. intros loc Hin%list_elem_of_In.
    apply (find_none _ _ Hfind) in Hin. lia.
Qed.

(** C2 (amended): every appointment of the aggregate was made from a slot
    of an answer; its location field is the name of a location of the
    collection whose id is the slot's locationId, or "Unknown"; it is
    "Unknown" whenever no location has that id; and when it is "Unknown",
    either no location has that id or one that has is itself named
    "Unknown". *)
Theorem appointment_location `{RT : JsRuntime} (w : World)
    (locations : list Location) (locationIds : list Z) (limit : Z)
    (schedule : list nat) (appointments : list Appointment)
    (a : Appointment) :
  getAvailableAppointments w locations locationIds limit schedule
  = Fulfilled appointments ->
  a ∈ appointments ->
  exists k slot,
    slot ∈ answer w locationIds limit k
    /\ a = toAppointment locations slot
    /\ (location a = "Unknown"
        \/ exists loc, loc ∈ locations /\ id loc = locationId slot
                       /\ location a = name loc)
    /\ ((forall loc, loc ∈ locations -> id loc <> locationId slot) ->
        location a = "Unknown")
    /\ (location a = "Unknown" ->
        (forall loc, loc ∈ locations -> id loc <> locationId slot)
        \/ exists loc, loc ∈ locations /\ id loc = locationId slot
                       /\ name loc = "Unknown").
Proof.
  intros Hrun Ha.
  destruct (aggregate_from_slot _ _ _ _ _ _ _ Hrun Ha) as (k & slot & Hslot & ->).
  exists k, slot. split; [done|]. split; [done|].
  pose proof (toAppointment_location locations slot) as Hjoin.
  destruct (List.find _ locations) as [found|].
  - destruct Hjoin as (Hin & Hid & Hname). split; [|split].
    + right. by exists found.
    + intros Hnone. by destruct (Hnone found Hin).
    + intros Hunknown. right. exists found. by rewrite <- Hname.
  - destruct Hjoin as [Hnone Hname]. split; [by left|]. split; [done|].
    by left.
Qed.

Lemma appointment_location_witness :
  getAvailableAppointments Sample.world_join Sample.offices [1; 2] 1
    [0; 1]%nat
  = Fulfilled [Sample.at_6pm; Sample.elsewhere]
  /\ Sample.elsewhere ∈ [Sample.at_6pm; Sample.elsewhere]
  /\ exists k slot,
       slot ∈ answer Sample.world_join [1; 2] 1 k
       /\ Sample.elsewhere = toAppointment Sample.offices slot
       /\ (location Sample.elsewhere = "Unknown"
           \/ exists loc, loc ∈ Sample.offices
                          /\ id loc = locationId slot
                          /\ location Sample.elsewhere = name loc)
       /\ ((forall loc, loc ∈ Sample.offices -> id loc <> locationId slot) ->
           location Sample.elsewhere = "Unknown")
       /\ (location Sample.elsewhere = "Unknown" ->
           (forall loc, loc ∈ Sample.offices -> id loc <> locationId slot)
           \/ exists loc, loc ∈ Sample.offices
                          /\ id loc = locationId slot
                          /\ name loc = "Unknown").
Proof.
  assert (getAvailableAppointments Sample.world_join Sample.offices [1; 2] 1
            [0; 1]%nat = Fulfilled [Sample.at_6pm; Sample.elsewhere])
    as Hrun by reflexivity.
  assert (Sample.elsewhere ∈ [Sample.at_6pm; Sample.elsewhere])
    as Ha by (right; left).
  split; [exact Hrun|]. split; [exact Ha|].
  exact (appointment_location Sample.world_join Sample.offices [1; 2] 1
           [0; 1]%nat [Sample.at_6pm; Sample.elsewhere] Sample.elsewhere
           Hrun Ha).
Defined.

(** C2 as stated fails: a location named "Unknown" is found by the join,
    and the appointment's location field is "Unknown" although a location
    of the collection has the slot's locationId. *)
Lemma location_Unknown_though_found :
  getAvailableAppointments Sample.world_renamed [Sample.Unknown_office] [1] 1
    [0%nat]
  = Fulfilled [Sample.renamed]
  /\ ~ (location Sample.renamed = "Unknown" <->
        forall loc, loc ∈ [Sample.Unknown_office] ->
                    id loc <> locationId Sample.slot_5pm).
Proof.
  split; [reflexivity|].
  intros [Hnone _]. apply (Hnone eq_refl Sample.Unknown_office); [left|done].
Qed.

(** C4: when one of the slot requests is rejected, the call is never
    fulfilled, whatever the other requests are answered and in whatever
    order the tasks settle, so no aggregate is returned; and it is
    rejected as soon as the schedule lets the task of that request
    settle. *)
Theorem getAvailableAppointments_all_or_nothing `{RT : JsRuntime} (w : World)
    (locations : list Location) (locationIds : list Z) (limit : Z)
    (schedule : list nat) (k : nat) (locationId : Z) (reason : string) :
  locationIds !! k = Some locationId ->
  slotsEndpoint w k limit locationId = Rejected reason ->
  (forall appointments,
     getAvailableAppointments w locations locationIds limit schedule
     <> Fulfilled appointments)
  /\ (k ∈ schedule ->
      exists reason',
        getAvailableAppointments w locations locationIds limit schedule
        = Rejected reason').
Proof. intros Hk Hreq. by apply (rejected_run _ _ _ _ k locationId reason). Qed.

Lemma getAvailableAppointments_all_or_nothing_witness :
  [1; 2] !! 1%nat = Some 2
  /\ slotsEndpoint Sample.world_second_down 1 1 2 = Rejected "fetch failed"
  /\ (forall appointments,
        getAvailableAppointments Sample.world_second_down Sample.offices
          [1; 2] 1 [0; 1]%nat <> Fulfilled appointments)
  /\ (1%nat ∈ [0; 1]%nat ->
      exists reason',
        getAvailableAppointments Sample.world_second_down Sample.offices
          [1; 2] 1 [0; 1]%nat = Rejected reason').
Proof.
  split; [reflexivity|]. split; [reflexivity|].
  apply (getAvailableAppointments_all_or_nothing Sample.world_second_down
           Sample.offices [1; 2] 1 [0; 1]%nat 1 2 "fetch failed");
    reflexivity.
Defined.

(** C10: when the call is fulfilled, every request was answered, the
    aggregate is a rearrangement of the appointments made from the slots
    of all the answers, one for each slot, and so has as many elements as
    the answers have slots. *)
Theorem getAvailableAppointments_count `{RT : JsRuntime} (w : World)
    (locations : list Location) (locationIds : list Z) (limit : Z)
    (schedule : list nat) (appointments : list Appointment) :
  getAvailableAppointments w locations locationIds limit schedule
  = Fulfilled appointments ->
  (forall k, (k < length locationIds)%nat -> answered w locationIds limit k)
  /\ appointments
     ≡ₚ map (toAppointment locations) (answers w locationIds limit)
  /\ length appointments = length (answers w locationIds limit).
Proof.
  intros Hrun. destruct (fulfilled_run _ _ _ _ _ _ Hrun) as [Hall Hperm].
  split; [done|]. split; [done|].
  by rewrite Hperm, length_map.
Qed.

Lemma getAvailableAppointments_count_witness :
  getAvailableAppointments Sample.world_busy Sample.offices [1; 2] 1
    [1; 0]%nat
  = Fulfilled [Sample.at_4pm; Sample.at_6pm; Sample.at_5pm]
  /\ (forall k, (k < length [1; 2])%nat ->
        answered Sample.world_busy [1; 2] 1 k)
  /\ [Sample.at_4pm; Sample.at_6pm; Sample.at_5pm]
     ≡ₚ map (toAppointment Sample.offices) (answers Sample.world_busy [1; 2] 1)
  /\ length [Sample.at_4pm; Sample.at_6pm; Sample.at_5pm]
     = length (answers Sample.world_busy [1; 2] 1).
Proof.
  assert (getAvailableAppointments Sample.world_busy Sample.offices [1; 2] 1
            [1; 0]%nat
          = Fulfilled [Sample.at_4pm; Sample.at_6pm; Sample.at_5pm])
    as Hrun by reflexivity.
  split; [exact Hrun|].
  exact (getAvailableAppointments_count Sample.world_busy Sample.offices
           [1; 2] 1 [1; 0]%nat _ Hrun).
Defined.

(** ** The driver *)

Section DriverFacts.
Context `{RT : JsRuntime}.

Lemma Array_each_log {A} (f : A -> string) (l : list A) (out : list string) :
  Array_each (fun x => console_log (f x)) l out = (Fulfilled tt, out ++ map f l).
Proof.
  revert out. induction l as [|x l IH]; intros out; simpl.
  - unfold Async_ret. by rewrite app_nil_r.
  - unfold Async_bind, console_log at 1. rewrite IH.
    by rewrite <- app_assoc.
Qed.

Lemma report_empty (out : list string) :
  report [] out = (Fulfilled tt, out ++ [no_appointments]).
Proof. done. Qed.

Lemma report_nonempty (appointments : list Appointment) (out : list string) :
  appointments <> [] ->
  report appointments out
  = (Fulfilled tt,
     out ++ map appointment_line (Array_sort byStart appointments)).
Proof.
  intros Hne. unfold report.
  destruct (decide (length appointments = 0%nat)) as [Hlen|_].
  - by apply length_zero_iff_nil in Hlen.
  - apply Array_each_log.
Qed.

(** A run in which both reads are answered goes on to the report. *)
Lemma init_reports (w : World) (schedule : list nat)
    (locations : list Location) (appointments : list Appointment)
    (out : list string) :
  getAllLocations w = Fulfilled locations ->
  getAvailableAppointments w locations (getAllLocationIds locations regions)
    1 schedule = Fulfilled appointments ->
  init w schedule out
  = report appointments (out ++ ["Checking for appointments..."]).
Proof.
  intros Hlocations Hslots. unfold init, Async_bind, await, console_log at 1.
  by rewrite Hlocations, Hslots.
Qed.

(** *** The sort *)

Lemma sort_insert_Permutation {A} (comparefn : A -> A -> option Z) (x : A)
    (l : list A) :
  sort_insert comparefn x l ≡ₚ x :: l.
Proof.
  induction l as [|y l IH]; simpl; [done|].
  destruct (decide _); [done|]. rewrite IH. apply Permutation_swap.
Qed.

Lemma Array_sort_Permutation {A} (comparefn : A -> A -> option Z)
    (l : list A) :
  Array_sort comparefn l ≡ₚ l.
Proof.
  induction l as [|x l IH]; simpl; [done|].
  unfold Array_sort in *. simpl. by rewrite sort_insert_Permutation, IH.
Qed.

(** On dates that parse, the comparator is the order of the time values. *)
Lemma byStart_le (a b : Appointment) :
  is_Some (Date_parse (start a)) -> is_Some (Date_parse (start b)) ->
  SortCompare byStart a b <= 0 <-> start_le a b.
Proof.
  intros [x Hx] [y Hy]. unfold SortCompare, byStart, start_le.
  rewrite Hx, Hy. simpl. lia.
Qed.

Lemma start_le_total (a b : Appointment) :
  is_Some (Date_parse (start a)) -> is_Some (Date_parse (start b)) ->
  start_le a b \/ start_le b a.
Proof.
  intros [x Hx] [y Hy]. unfold start_le. rewrite Hx, Hy. lia.
Qed.

Lemma start_le_trans (a b c : Appointment) :
  start_le a b -> start_le b c -> start_le a c.
Proof.
  unfold start_le.
  destruct (Date_parse (start a)), (Date_parse (start b)),
    (Date_parse (start c)); try done. lia.
Qed.

Lemma sort_insert_sorted (x : Appointment) (l : list Appointment) :
  is_Some (Date_parse (start x)) ->
  Forall (fun a => is_Some (Date_parse (start a))) l ->
  StronglySorted start_le l ->
  StronglySorted start_le (sort_insert byStart x l).
Proof.
  intros Hx Hl Hsorted.
  induction Hsorted as [|y l Hsorted IH Hy]; simpl.
  - repeat constructor.
  - apply Forall_cons in Hl as [Hvalid Hl].
    destruct (decide (SortCompare byStart x y <= 0)) as [Hle|Hgt].
    + apply byStart_le in Hle; [|done..].
      constructor; [by constructor|]. constructor; [done|].
      eapply Forall_impl; [exact Hy|]. intros c. by apply start_le_trans.
    + constructor; [by apply IH|].
      rewrite sort_insert_Permutation. constructor; [|done].
      destruct (start_le_total x y Hx Hvalid) as [Hle|Hle]; [|done].
      by apply byStart_le in Hle.
Qed.

Lemma Array_sort_sorted (l : list Appointment) :
  Forall (fun a => is_Some (Date_parse (start a))) l ->
  StronglySorted start_le (Array_sort byStart l).
Proof.
  induction 1 as [|x l Hx Hl IH]; [constructor|].
  unfold Array_sort in *. simpl. apply sort_insert_sorted; [done| |done].
  fold (Array_sort byStart l). by rewrite Array_sort_Permutation.
Qed.

(** *** The lines *)

Lemma appointment_line_not_banner (a : Appointment) :
  appointment_line a <> "Checking for appointments...".
Proof. done. Qed.

Lemma appointment_line_not_none (a : Appointment) :
  appointment_line a <> no_appointments.
Proof. done. Qed.

End DriverFacts.

(** C3 (amended): in a run whose aggregate is not empty and in which every
    appointment's start string parses to a valid date, init prints, after
    its first line, one line for each appointment of the aggregate, in an
    order that is non-decreasing in the parsed start time. *)
Theorem init_prints_by_start `{RT : JsRuntime} (w : World)
    (schedule : list nat) (locations : list Location)
    (appointments : list Appointment) (out : list string) :
  getAllLocations w = Fulfilled locations ->
  getAvailableAppointments w locations (getAllLocationIds locations regions)
    1 schedule = Fulfilled appointments ->
  appointments <> [] ->
  (forall a, a ∈ appointments -> is_Some (Date_parse (start a))) ->
  exists printed,
    init w schedule out
    = (Fulfilled tt,
       out ++ "Checking for appointments..." :: map appointment_line printed)
    /\ printed ≡ₚ appointments
    /\ StronglySorted start_le printed.
Proof.
  intros Hlocations Hslots Hne Hvalid.
  exists (Array_sort byStart appointments). split; [|split].
  - rewrite (init_reports _ _ _ _ _ Hlocations Hslots).
    rewrite report_nonempty by done. by rewrite <- app_assoc.
  - apply Array_sort_Permutation.
  - apply Array_sort_sorted. by apply Forall_forall.
Qed.

Lemma init_prints_by_start_witness :
  getAllLocations Sample.world_busy = Fulfilled Sample.offices
  /\ getAvailableAppointments Sample.world_busy Sample.offices
       (getAllLocationIds Sample.offices regions) 1 [1; 0]%nat
     = Fulfilled [Sample.at_4pm; Sample.at_6pm; Sample.at_5pm]
  /\ [Sample.at_4pm; Sample.at_6pm; Sample.at_5pm] <> []
  /\ (forall a, a ∈ [Sample.at_4pm; Sample.at_6pm; Sample.at_5pm] ->
        is_Some (Date_parse (start a)))
  /\ exists printed,
       init Sample.world_busy [1; 0]%nat []
       = (Fulfilled tt,
          [] ++ "Checking for appointments..."
             :: map appointment_line printed)
       /\ printed ≡ₚ [Sample.at_4pm; Sample.at_6pm; Sample.at_5pm]
       /\ StronglySorted start_le printed.
Proof.
  assert (forall a, a ∈ [Sample.at_4pm; Sample.at_6pm; Sample.at_5pm] ->
            is_Some (Date_parse (start a))) as Hvalid.
  { intros a Ha. repeat (apply elem_of_cons in Ha as [->|Ha]; [by eexists|]).
    by apply elem_of_nil in Ha. }
  split; [reflexivity|]. split; [reflexivity|]. split; [discriminate|].
  split; [exact Hvalid|].
  exact (init_prints_by_start Sample.world_busy [1; 0]%nat Sample.offices
           [Sample.at_4pm; Sample.at_6pm; Sample.at_5pm] []
           eq_refl eq_refl ltac:(discriminate) Hvalid).
Defined.

(** C3 as stated fails: a slot record without a start time is printed as
    "Invalid Date", which parses to no time value; the comparator is NaN
    against it, the sort leaves the three appointments where they are, and
    the one of six o'clock is printed before the one of five. *)
Lemma init_unsorted_on_invalid_date :
  getAvailableAppointments Sample.world_undated Sample.offices
    (getAllLocationIds Sample.offices regions) 1 [0; 1]%nat
  = Fulfilled [Sample.at_6pm; Sample.undated; Sample.at_5pm]
  /\ init Sample.world_undated [0; 1]%nat []
     = (Fulfilled tt,
        "Checking for appointments..."
          :: map appointment_line
               [Sample.at_6pm; Sample.undated; Sample.at_5pm])
  /\ ~ Sorted start_le [Sample.at_6pm; Sample.undated; Sample.at_5pm]
  /\ Date_parse (start Sample.at_6pm) = Some 1700003600000
  /\ Date_parse (start Sample.at_5pm) = Some 1700000000000.
Proof.
  split; [reflexivity|]. split; [reflexivity|]. split; [|done].
  intros Hsorted. apply Sorted_inv in Hsorted as [_ Hhd].
  apply HdRel_inv in Hhd. exact Hhd.
Qed.

(** C5: in a run whose aggregate is empty, init prints, after its first
    line, the line "No appointments found." and no appointment line; in a
    run whose aggregate is not empty, it prints after its first line one
    appointment line for each appointment, and does not print
    "No appointments found.". *)
Theorem init_report_branches `{RT : JsRuntime} (w : World)
    (schedule : list nat) (locations : list Location)
    (appointments : list Appointment) (out : list string) :
  getAllLocations w = Fulfilled locations ->
  getAvailableAppointments w locations (getAllLocationIds locations regions)
    1 schedule = Fulfilled appointments ->
  (appointments = [] ->
     init w schedule out
     = (Fulfilled tt, out ++ ["Checking for appointments..."; no_appointments])
     /\ forall a,
          appointment_line a
          ∉ ["Checking for appointments..."; no_appointments])
  /\ (appointments <> [] ->
      exists printed,
        init w schedule out
        = (Fulfilled tt,
           out ++ "Checking for appointments..."
               :: map appointment_line printed)
        /\ printed ≡ₚ appointments
        /\ length (map appointment_line printed) = length appointments
        /\ no_appointments
           ∉ "Checking for appointments..." :: map appointment_line printed).
Proof.
  intros Hlocations Hslots.
  rewrite (init_reports _ _ _ _ _ Hlocations Hslots). split.
  - intros ->. rewrite report_empty, <- app_assoc. split; [done|].
    intros a [Ha|[Ha|Ha]%elem_of_cons]%elem_of_cons.
    + by apply appointment_line_not_banner in Ha.
    + by apply appointment_line_not_none in Ha.
    + by apply elem_of_nil in Ha.
  - intros Hne. exists (Array_sort byStart appointments).
    rewrite report_nonempty, <- app_assoc by done.
    split; [done|]. split; [apply Array_sort_Permutation|].
    split; [by rewrite length_map, Array_sort_Permutation|].
    intros [Hbanner|Hline]%elem_of_cons; [done|].
    apply list_elem_of_In, in_map_iff in Hline as (a & Ha & _).
    by apply appointment_line_not_none in Ha.
Qed.

Lemma init_report_branches_witness :
  getAllLocations Sample.world_idle = Fulfilled Sample.offices
  /\ getAvailableAppointments Sample.world_idle Sample.offices
       (getAllLocationIds Sample.offices regions) 1 [0; 1]%nat
     = Fulfilled []
  /\ init Sample.world_idle [0; 1]%nat []
     = (Fulfilled tt, ["Checking for appointments..."; no_appointments])
  /\ getAllLocations Sample.world_busy = Fulfilled Sample.offices
  /\ getAvailableAppointments Sample.world_busy Sample.offices
       (getAllLocationIds Sample.offices regions) 1 [1; 0]%nat
     = Fulfilled [Sample.at_4pm; Sample.at_6pm; Sample.at_5pm]
  /\ exists printed,
       init Sample.world_busy [1; 0]%nat []
       = (Fulfilled tt,
          [] ++ "Checking for appointments..."
             :: map appointment_line printed)
       /\ printed ≡ₚ [Sample.at_4pm; Sample.at_6pm; Sample.at_5pm]
       /\ length (map appointment_line printed)
          = length [Sample.at_4pm; Sample.at_6pm; Sample.at_5pm]
       /\ no_appointments
          ∉ "Checking for appointments..." :: map appointment_line printed.
Proof.
  split; [reflexivity|]. split; [reflexivity|]. split.
  { apply (init_report_branches Sample.world_idle [0; 1]%nat Sample.offices
             [] [] eq_refl eq_refl). reflexivity. }
  split; [reflexivity|]. split; [reflexivity|].
  apply (init_report_branches Sample.world_busy [1; 0]%nat Sample.offices
           [Sample.at_4pm; Sample.at_6pm; Sample.at_5pm] [] eq_refl eq_refl).
  discriminate.
Defined.

(** C9: with no identifier to ask for, the call is fulfilled with an empty
    aggregate, whatever the schedule; and a run of the driver in which the
    filter keeps no location prints "No appointments found.". *)
Theorem getAvailableAppointments_no_identifier `{RT : JsRuntime} (w : World)
    (locations : list Location) (locationIds : list Z) (limit : Z)
    (schedule : list nat) :
  locationIds = [] ->
  getAvailableAppointments w locations locationIds limit schedule
  = Fulfilled []
  /\ forall out,
       getAllLocations w = Fulfilled locations ->
       getAllLocationIds locations regions = locationIds ->
       init w schedule out
       = (Fulfilled tt,
          out ++ ["Checking for appointments..."; no_appointments]).
Proof.
  intros Hempty. split; [by apply empty_run|].
  intros out Hlocations Hids.
  rewrite (init_reports w schedule locations [] out Hlocations).
  - by rewrite report_empty, <- app_assoc.
  - rewrite Hids. by apply empty_run.
Qed.

Lemma getAvailableAppointments_no_identifier_witness :
  getAllLocationIds [Sample.Boston] regions = []
  /\ getAllLocations Sample.world_far = Fulfilled [Sample.Boston]
  /\ getAvailableAppointments Sample.world_far [Sample.Boston] [] 1 [0%nat]
     = Fulfilled []
  /\ init Sample.world_far [0%nat] []
     = (Fulfilled tt, ["Checking for appointments..."; no_appointments]).
Proof.
  split; [reflexivity|]. split; [reflexivity|].
  destruct (getAvailableAppointments_no_identifier Sample.world_far
              [Sample.Boston] [] 1 [0%nat] eq_refl) as [Hcall Hinit].
  split; [exact Hcall|].
  exact (Hinit [] eq_refl eq_refl).
Defined.

(** ** The scenarios of the specification, run *)

Example slot_scenario :
  toAppointment Sample.offices Sample.slot_5pm
  = {| location := "Cincinnati";
       start := "11/14/2023, 5:13:20 PM";
       end_ := "11/14/2023, 6:13:20 PM" |}.
Proof. reflexivity. Qed.

Example init_scenario :
  init Sample.world_busy [1; 0]%nat ["Starting appointment checker..."]
  = (Fulfilled tt,
     ["Starting appointment checker...";
      "Checking for appointments...";
      "There is a TTP appointment available at Louisville on 11/14/2023, 4:13:20 PM!";
      "There is a TTP appointment available at Cincinnati on 11/14/2023, 5:13:20 PM!";
      "There is a TTP appointment available at Cincinnati on 11/14/2023, 6:13:20 PM!"]).
Proof. reflexivity. Qed.

Example init_scenario_down :
  init Sample.world_second_down [0; 1]%nat []
  = (Rejected "fetch failed", ["Checking for appointments..."]).
Proof. reflexivity. Qed.

(** * Further properties *)

(** ** The location filter *)

(** An empty allow-list keeps nothing, and an empty collection has nothing
    to keep. *)
Theorem getAllLocationIds_empty :
  (forall locations, getAllLocationIds locations [] = [])
  /\ (forall filter, getAllLocationIds [] filter = []).
Proof.
  split; [|done]. intros locations. unfold getAllLocationIds.
  assert (forall x, includes [] x = false) as Hnone.
  { intros x. unfold includes. apply bool_decide_eq_false_2, not_elem_of_nil. }
  induction locations as [|location locations IH]; [done|].
  cbn [List.filter]. by rewrite Hnone.
Qed.

(** When no location of the collection is in an allowed state, the result
    is empty. *)
Theorem getAllLocationIds_none (locations : list Location)
    (filter : list string) :
  (forall location, location ∈ locations -> state location ∉ filter) ->
  getAllLocationIds locations filter = [].
Proof.
  intros Hnone.
  destruct (getAllLocationIds locations filter) as [|i ids] eqn:Hids; [done|].
  assert (i ∈ getAllLocationIds locations filter) as Hi by (rewrite Hids; left).
  apply getAllLocationIds_elem in Hi as (location & Hin & Hstate & _).
  by destruct (Hnone location Hin).
Qed.

Lemma getAllLocationIds_none_witness :
  (forall location, location ∈ [Sample.Boston] -> state location ∉ regions)
  /\ getAllLocationIds [Sample.Boston] regions = [].
Proof.
  assert (forall location, location ∈ [Sample.Boston] ->
            state location ∉ regions) as Hnone.
  { intros location ->%list_elem_of_singleton. compute_done. }
  split; [exact Hnone|].
  exact (getAllLocationIds_none [Sample.Boston] regions Hnone).
Defined.

(** When every location of the collection is in an allowed state, the
    result is the ids of the whole collection, in order. *)
Theorem getAllLocationIds_every (locations : list Location)
    (filter : list string) :
  (forall location, location ∈ locations -> state location ∈ filter) ->
  getAllLocationIds locations filter
  = map (fun location => id location) locations.
Proof.
  unfold getAllLocationIds.
  induction locations as [|location locations IH]; intros Hall; [done|].
  simpl. rewrite (proj2 (includes_spec _ _)) by (apply Hall; left).
  simpl. f_equal. apply IH. intros location' Hin. apply Hall. by right.
Qed.

Lemma getAllLocationIds_every_witness :
  (forall location, location ∈ Sample.offices -> state location ∈ regions)
  /\ getAllLocationIds Sample.offices regions
     = map (fun location => id location) Sample.offices.
Proof.
  assert (forall location, location ∈ Sample.offices ->
            state location ∈ regions) as Hall.
  { intros location Hin.
    repeat (apply elem_of_cons in Hin as [->|Hin]; [compute_done|]).
    by apply elem_of_nil in Hin. }
  split; [exact Hall|].
  exact (getAllLocationIds_every Sample.offices regions Hall).
Defined.

(** Filtering two collections put end to end gives the two results put
    end to end. *)
Theorem getAllLocationIds_app (locations1 locations2 : list Location)
    (filter : list string) :
  getAllLocationIds (locations1 ++ locations2) filter
  = getAllLocationIds locations1 filter ++ getAllLocationIds locations2 filter.
Proof. unfold getAllLocationIds. by rewrite List.filter_app, map_app. Qed.

(** The allow-list counts as a set: two allow-lists with the same members,
    in whatever order and however often repeated, give the same result. *)
Theorem getAllLocationIds_allow_set (locations : list Location)
    (filter filter' : list string) :
  (forall x, x ∈ filter <-> x ∈ filter') ->
  getAllLocationIds locations filter = getAllLocationIds locations filter'.
Proof.
  intros Hsame. unfold getAllLocationIds. f_equal.
  apply List.filter_ext. intros location. unfold includes.
  apply bool_decide_ext, Hsame.
Qed.

Lemma getAllLocationIds_allow_set_witness :
  (forall x, x ∈ ["OH"; "KY"] <-> x ∈ ["KY"; "OH"; "KY"])
  /\ getAllLocationIds Sample.offices ["OH"; "KY"]
     = getAllLocationIds Sample.offices ["KY"; "OH"; "KY"].
Proof.
  assert (forall x : string, x ∈ ["OH"; "KY"] <-> x ∈ ["KY"; "OH"; "KY"])
    as Hsame.
  { intros x. rewrite !elem_of_cons, !elem_of_nil. tauto. }
  split; [exact Hsame|].
  exact (getAllLocationIds_allow_set Sample.offices _ _ Hsame).
Defined.

(** A larger allow-list keeps at least what a smaller one keeps, in the
    same order. *)
Theorem getAllLocationIds_allow_mono (locations : list Location)
    (filter filter' : list string) :
  (forall x, x ∈ filter -> x ∈ filter') ->
  sublist (getAllLocationIds locations filter)
          (getAllLocationIds locations filter').
Proof.
  intros Hsub. unfold getAllLocationIds.
  induction locations as [|location locations IH]; simpl; [constructor|].
  destruct (includes filter (state location)) eqn:Hin.
  - apply includes_spec, Hsub, includes_spec in Hin. rewrite Hin. simpl.
    by apply sublist_skip.
  - destruct (includes filter' (state location)); simpl; [|done].
    by apply sublist_cons.
Qed.

Lemma getAllLocationIds_allow_mono_witness :
  (forall x, x ∈ ["OH"] -> x ∈ regions)
  /\ sublist (getAllLocationIds Sample.offices ["OH"])
             (getAllLocationIds Sample.offices regions).
Proof.
  assert (forall x : string, x ∈ ["OH"] -> x ∈ regions) as Hsub.
  { intros x ->%list_elem_of_singleton. left. }
  split; [exact Hsub|].
  exact (getAllLocationIds_allow_mono Sample.offices ["OH"] regions Hsub).
Defined.

(** Identifiers are not merged: an id comes out once for each location of
    the collection that carries it and is in an allowed state. *)
Theorem getAllLocationIds_count (locations : list Location)
    (filter : list string) (i : Z) :
  length (List.filter (Z.eqb i) (getAllLocationIds locations filter))
  = length (List.filter
              (fun location =>
                 Z.eqb i (id location) && includes filter (state location))
              locations).
Proof.
  unfold getAllLocationIds.
  induction locations as [|location locations IH]; [done|].
  simpl. destruct (includes filter (state location)); simpl.
  - rewrite andb_true_r. destruct (Z.eqb i (id location)); simpl; by rewrite IH.
  - by rewrite andb_false_r.
Qed.

(** ** The join *)

(** When several locations carry the slot's locationId, the first of them
    in the collection names the appointment. *)
Theorem toAppointment_first_match `{RT : JsRuntime}
    (before after : list Location) (found : Location) (slot : Slot) :
  (forall loc, loc ∈ before -> id loc <> locationId slot) ->
  id found = locationId slot ->
  location (toAppointment (before ++ found :: after) slot) = name found.
Proof.
  intros Hbefore Hfound. unfold toAppointment. simpl.
  induction before as [|loc before IH]; simpl.
  - by rewrite (proj2 (Z.eqb_eq _ _) Hfound).
  - rewrite (proj2 (Z.eqb_neq _ _)) by (apply Hbefore; left).
    apply IH. intros loc' Hin. apply Hbefore. by right.
Qed.

Lemma toAppointment_first_match_witness :
  (forall loc, loc ∈ [Louisville] -> id loc <> locationId Sample.slot_5pm)
  /\ id Cincinnati = locationId Sample.slot_5pm
  /\ location (toAppointment
                 ([Louisville] ++ Cincinnati :: [Sample.Cincinnati_annex])
                 Sample.slot_5pm)
     = name Cincinnati.
Proof.
  assert (forall loc, loc ∈ [Louisville] ->
            id loc <> locationId Sample.slot_5pm) as Hbefore.
  { by intros loc ->%list_elem_of_singleton. }
  split; [exact Hbefore|]. split; [reflexivity|].
  exact (toAppointment_first_match [Louisville] [Sample.Cincinnati_annex]
           Cincinnati Sample.slot_5pm Hbefore eq_refl).
Defined.

(** ** The fan-out *)

Section FanOutOrder.
Context `{RT : JsRuntime}.
Variable w : World.
Variable locations : list Location.
Variable locationIds : list Z.
Variable limit : Z.

Local Abbreviation step := (settle w locations locationIds limit).
Local Abbreviation run := (run_fanout w locations locationIds limit).
Local Abbreviation inv := (fanout_inv w locations locationIds limit).
Local Abbreviation unrejected :=
  (fun k => ~ rejected w locationIds limit k).

(** Only the tasks of the schedule run. *)
Lemma settle_fulfilled_from (st : fanout) (k k' : nat) :
  k' ∈ fulfilled (step st k) -> k' ∈ fulfilled st \/ k' = k.
Proof.
  unfold settle.
  destruct (locationIds !! k) as [locationId|]; [|by left].
  destruct (decide (k ∈ fulfilled st)); [by left|].
  destruct (slotsEndpoint w k limit locationId); simpl; [by left| |by left].
  intros [Hk'| ->%list_elem_of_singleton]%elem_of_app; [by left|by right].
Qed.

Lemma foldl_settle_fulfilled_from (schedule : list nat) (st : fanout)
    (k' : nat) :
  k' ∈ fulfilled (foldl step st schedule) ->
  k' ∈ fulfilled st \/ k' ∈ schedule.
Proof.
  revert st. induction schedule as [|k schedule IH]; intros st; [by left|].
  simpl. intros [[Hk'| ->]%settle_fulfilled_from|Hk']%IH.
  - by left.
  - right. left.
  - right. by right.
Qed.

(** Without a rejected request there is no rejection. *)
Lemma settle_unrejected (st : fanout) (k : nat) :
  unrejected k ->
  (forall reason, all st <> Rejected reason) ->
  forall reason, all (step st k) <> Rejected reason.
Proof.
  intros Hk Hst reason. unfold settle.
  destruct (locationIds !! k) as [locationId|] eqn:Hid; [|done].
  destruct (decide (k ∈ fulfilled st)); [done|].
  destruct (slotsEndpoint w k limit locationId) as [|data|reason'] eqn:Hreq;
    simpl; [done| |].
  - destruct (all st) as [|[]|] eqn:Hall; [|done|by apply (Hst reason)].
    by destruct (decide _).
  - destruct Hk. by exists locationId, reason'.
Qed.

Lemma foldl_settle_unrejected (schedule : list nat) (st : fanout) :
  (forall k, k ∈ schedule -> unrejected k) ->
  (forall reason, all st <> Rejected reason) ->
  forall reason, all (foldl step st schedule) <> Rejected reason.
Proof.
  revert st. induction schedule as [|k schedule IH]; intros st Hsched Hst;
    [done|].
  simpl. apply IH.
  - intros k' Hk'. apply Hsched. by right.
  - apply settle_unrejected; [|done]. apply Hsched. left.
Qed.

Lemma fanout_start_unrejected (reason : string) :
  all (fanout_start locationIds) <> Rejected reason.
Proof. unfold fanout_start. simpl. by destruct (decide _). Qed.

(** While the task of some request has not run, [Promise.all] is not
    fulfilled. *)
Lemma unfinished_not_fulfilled (st : fanout) (k : nat) :
  inv st -> (k < length locationIds)%nat -> k ∉ fulfilled st ->
  all st <> Fulfilled tt.
Proof.
  intros [Honce Hans _ Hall _] Hk Hnot Hst. apply Hnot.
  rewrite (fulfilled_complete _ _ _ _ Honce Hans (Hall Hst)).
  apply elem_of_seq. lia.
Qed.

(** Once [Promise.all] is fulfilled, nothing moves. *)
Lemma settle_fulfilled_fixed (st : fanout) (k : nat) :
  inv st -> all st = Fulfilled tt -> step st k = st.
Proof.
  intros Hinv Hst. unfold settle.
  destruct (locationIds !! k) as [locationId|] eqn:Hid; [|done].
  destruct (decide (k ∈ fulfilled st)) as [|Hnot]; [done|].
  destruct (unfinished_not_fulfilled st k Hinv); [|done..].
  by apply lookup_lt_Some in Hid.
Qed.

Lemma foldl_settle_fulfilled_fixed (more : list nat) (st : fanout) :
  inv st -> all st = Fulfilled tt -> foldl step st more = st.
Proof.
  intros Hinv Hst. induction more as [|k more IH]; [done|].
  simpl. by rewrite settle_fulfilled_fixed.
Qed.

(** Answered tasks that settle one after the other, each once, run in
    that order. *)
Lemma foldl_settle_order (schedule : list nat) (st : fanout) :
  (forall k, k ∈ schedule -> answered w locationIds limit k) ->
  NoDup (fulfilled st ++ schedule) ->
  fulfilled (foldl step st schedule) = fulfilled st ++ schedule.
Proof.
  revert st. induction schedule as [|k schedule IH]; intros st Hans Hnodup.
  - simpl. by rewrite app_nil_r.
  - simpl.
    assert (fulfilled (step st k) = fulfilled st ++ [k]) as Hstep.
    { destruct (Hans k) as (locationId & data & Hid & Hreq); [left|].
      unfold settle. rewrite Hid.
      destruct (decide (k ∈ fulfilled st)) as [Hin|_].
      - apply NoDup_app in Hnodup as (_ & Hdisjoint & _).
        destruct (Hdisjoint k Hin). left.
      - by rewrite Hreq. }
    rewrite IH.
    + by rewrite Hstep, <- app_assoc.
    + intros k' Hk'. apply Hans. by right.
    + by rewrite Hstep, <- app_assoc.
Qed.

End FanOutOrder.

Lemma pending_run `{RT : JsRuntime} (w : World) (locations : list Location)
    (locationIds : list Z) (limit : Z) (schedule : list nat) (k : nat) :
  (k < length locationIds)%nat ->
  k ∉ fulfilled (run_fanout w locations locationIds limit schedule) ->
  (forall k', k' ∈ schedule -> ~ rejected w locationIds limit k') ->
  getAvailableAppointments w locations locationIds limit schedule = Pending.
Proof.
  intros Hk Hnot Hsched. unfold getAvailableAppointments.
  pose proof (run_fanout_inv w locations locationIds limit schedule) as Hinv.
  pose proof (unfinished_not_fulfilled _ _ _ _ _ k Hinv Hk Hnot) as Hfulfilled.
  pose proof (foldl_settle_unrejected w locations locationIds limit schedule
                (fanout_start locationIds) Hsched
                (fanout_start_unrejected locationIds)) as Hrejected.
  fold (run_fanout w locations locationIds limit schedule) in Hrejected.
  destruct (all (run_fanout w locations locationIds limit schedule))
    as [|[]|reason]; [done|done|by destruct (Hrejected reason)].
Qed.

Lemma Sample_world_unrejected (locations : list Location)
    (answers : list (list Slot)) (locationIds : list Z) (limit : Z)
    (k : nat) :
  ~ rejected (Sample.world locations answers) locationIds limit k.
Proof.
  intros (locationId & reason & _ & Hreq). simpl in Hreq.
  by destruct (answers !! k).
Qed.

(** The call waits for every task: while the task of one identifier has
    not settled and no task that has settled was rejected, the call is
    pending, whatever the others have been answered. *)
Theorem getAvailableAppointments_waits `{RT : JsRuntime} (w : World)
    (locations : list Location) (locationIds : list Z) (limit : Z)
    (schedule : list nat) (k : nat) :
  (k < length locationIds)%nat ->
  k ∉ schedule ->
  (forall k', k' ∈ schedule -> ~ rejected w locationIds limit k') ->
  getAvailableAppointments w locations locationIds limit schedule = Pending.
Proof.
  intros Hk Hnot Hsched. apply (pending_run _ _ _ _ _ k); [done| |done].
  intros [Hin|Hin]%foldl_settle_fulfilled_from; [|done].
  by apply elem_of_nil in Hin.
Qed.

Lemma getAvailableAppointments_waits_witness :
  (0 < length [1; 2])%nat
  /\ (0%nat ∉ [1%nat])
  /\ (forall k', k' ∈ [1%nat] -> ~ rejected Sample.world_busy [1; 2] 1 k')
  /\ getAvailableAppointments Sample.world_busy Sample.offices [1; 2] 1
       [1%nat]
     = Pending.
Proof.
  assert (0%nat ∉ [1%nat]) as Hnot by (by intros ?%list_elem_of_singleton).
  assert (forall k', k' ∈ [1%nat] ->
            ~ rejected Sample.world_busy [1; 2] 1 k') as Hsched.
  { intros k' _. apply Sample_world_unrejected. }
  split; [simpl; lia|]. split; [exact Hnot|]. split; [exact Hsched|].
  apply (getAvailableAppointments_waits Sample.world_busy Sample.offices
           [1; 2] 1 [1%nat] 0); [simpl; lia|exact Hnot|exact Hsched].
Defined.

(** There is no timeout: when the request of one identifier never
    settles, the call is pending for ever, as long as no task that settles
    is rejected. *)
Theorem getAvailableAppointments_hangs `{RT : JsRuntime} (w : World)
    (locations : list Location) (locationIds : list Z) (limit : Z)
    (schedule : list nat) (k : nat) (locationId : Z) :
  locationIds !! k = Some locationId ->
  slotsEndpoint w k limit locationId = Pending ->
  (forall k', k' ∈ schedule -> ~ rejected w locationIds limit k') ->
  getAvailableAppointments w locations locationIds limit schedule = Pending.
Proof.
  intros Hid Hreq Hsched. apply (pending_run _ _ _ _ _ k); [|  |done].
  - by apply lookup_lt_Some in Hid.
  - intros Hin.
    apply (inv_answered _ _ _ _ _
             (run_fanout_inv w locations locationIds limit schedule)) in Hin
      as (locationId' & data & Hid' & Hreq').
    congruence.
Qed.

Lemma getAvailableAppointments_hangs_witness :
  [1; 2] !! 0%nat = Some 1
  /\ slotsEndpoint Sample.world_hanging 0 1 1 = Pending
  /\ (forall k', k' ∈ [1; 0; 1]%nat ->
        ~ rejected Sample.world_hanging [1; 2] 1 k')
  /\ getAvailableAppointments Sample.world_hanging Sample.offices [1; 2] 1
       [1; 0; 1]%nat
     = Pending.
Proof.
  assert (forall k', k' ∈ [1; 0; 1]%nat ->
            ~ rejected Sample.world_hanging [1; 2] 1 k') as Hsched.
  { intros k' _ (locationId & reason & _ & Hreq). simpl in Hreq.
    by destruct k'. }
  split; [reflexivity|]. split; [reflexivity|]. split; [exact Hsched|].
  apply (getAvailableAppointments_hangs Sample.world_hanging Sample.offices
           [1; 2] 1 [1; 0; 1]%nat 0 1); [reflexivity|reflexivity|exact Hsched].
Defined.

(** The first rejection wins: the call is rejected with the reason of the
    first task to settle on a rejected request, whatever settles after. *)
Theorem getAvailableAppointments_first_rejection `{RT : JsRuntime} (w : World)
    (locations : list Location) (locationIds : list Z) (limit : Z)
    (before after : list nat) (k : nat) (locationId : Z) (reason : string) :
  (forall k', k' ∈ before -> ~ rejected w locationIds limit k') ->
  locationIds !! k = Some locationId ->
  slotsEndpoint w k limit locationId = Rejected reason ->
  getAvailableAppointments w locations locationIds limit (before ++ k :: after)
  = Rejected reason.
Proof.
  intros Hbefore Hid Hreq. unfold getAvailableAppointments, run_fanout.
  rewrite foldl_app. simpl.
  set (st := foldl (settle w locations locationIds limit)
               (fanout_start locationIds) before).
  assert (fanout_inv w locations locationIds limit st) as Hinv
    by apply foldl_settle_inv, fanout_start_inv.
  assert (all st = Pending) as Hpending.
  { pose proof (rejected_never_fulfilled _ _ _ _ k locationId reason Hid Hreq
                  st Hinv) as Hfulfilled.
    pose proof (foldl_settle_unrejected w locations locationIds limit before
                  (fanout_start locationIds) Hbefore
                  (fanout_start_unrejected locationIds)) as Hrejected.
    fold st in Hrejected.
    destruct (all st) as [|[]|reason']; [done|done|].
    by destruct (Hrejected reason'). }
  assert (all (settle w locations locationIds limit st k) = Rejected reason)
    as Hsettled.
  { unfold settle. rewrite Hid.
    destruct (decide (k ∈ fulfilled st)) as [Hin|_].
    - apply (inv_answered _ _ _ _ _ Hinv) in Hin
        as (locationId' & data & Hid' & Hreq').
      congruence.
    - rewrite Hreq. simpl. by rewrite Hpending. }
  rewrite foldl_settle_settled by (by rewrite Hsettled).
  by rewrite Hsettled.
Qed.

Lemma getAvailableAppointments_first_rejection_witness :
  (forall k', k' ∈ [] -> ~ rejected Sample.world_both_down [1; 2] 1 k')
  /\ [1; 2] !! 1%nat = Some 2
  /\ slotsEndpoint Sample.world_both_down 1 1 2 = Rejected "fetch failed"
  /\ getAvailableAppointments Sample.world_both_down Sample.offices [1; 2] 1
       ([] ++ 1%nat :: [0%nat])
     = Rejected "fetch failed".
Proof.
  assert (forall k', k' ∈ [] ->
            ~ rejected Sample.world_both_down [1; 2] 1 k') as Hbefore.
  { intros k' Hk'. by apply elem_of_nil in Hk'. }
  split; [exact Hbefore|]. split; [reflexivity|]. split; [reflexivity|].
  exact (getAvailableAppointments_first_rejection Sample.world_both_down
           Sample.offices [1; 2] 1 [] [0%nat] 1 2 "fetch failed"
           Hbefore eq_refl eq_refl).
Defined.

(** The aggregate is in the order the tasks finished: when every request
    is answered and every task settles once, the call is fulfilled with
    the appointments of the answers, answer after answer in the order of
    the schedule, each answer in its own order. *)
Theorem getAvailableAppointments_completion_order `{RT : JsRuntime}
    (w : World) (locations : list Location) (locationIds : list Z)
    (limit : Z) (schedule : list nat) :
  NoDup schedule ->
  (forall k, k ∈ schedule <-> (k < length locationIds)%nat) ->
  (forall k, (k < length locationIds)%nat -> answered w locationIds limit k) ->
  getAvailableAppointments w locations locationIds limit schedule
  = Fulfilled
      (concat (map (fun k => map (toAppointment locations)
                                 (answer w locationIds limit k))
                   schedule)).
Proof.
  intros Hnodup Hall Hans.
  destruct (answered_run w locations locationIds limit schedule Hans)
    as [appointments Hrun]; [by intros k Hk%Hall|].
  rewrite Hrun. f_equal. revert Hrun. unfold getAvailableAppointments.
  pose proof (run_fanout_inv w locations locationIds limit schedule)
    as [_ _ Hpush _ _].
  destruct (all _) as [|[]|]; [done| |done]. intros [= <-].
  rewrite Hpush. unfold run_fanout. rewrite foldl_settle_order; [done| |done].
  intros k Hk%Hall. by apply Hans.
Qed.

Lemma getAvailableAppointments_completion_order_witness :
  NoDup [1; 0]%nat
  /\ (forall k, k ∈ [1; 0]%nat <-> (k < length [1; 2])%nat)
  /\ (forall k, (k < length [1; 2])%nat ->
        answered Sample.world_busy [1; 2] 1 k)
  /\ getAvailableAppointments Sample.world_busy Sample.offices [1; 2] 1
       [1; 0]%nat
     = Fulfilled
         (concat (map (fun k => map (toAppointment Sample.offices)
                                    (answer Sample.world_busy [1; 2] 1 k))
                      [1; 0]%nat)).
Proof.
  assert (NoDup [1; 0]%nat) as Hnodup.
  { apply NoDup_cons. split; [|apply NoDup_singleton].
    by intros ?%list_elem_of_singleton. }
  assert (forall k, k ∈ [1; 0]%nat <-> (k < length [1; 2])%nat) as Hall.
  { intros k. rewrite !elem_of_cons, elem_of_nil. simpl. lia. }
  assert (forall k, (k < length [1; 2])%nat ->
            answered Sample.world_busy [1; 2] 1 k) as Hans.
  { intros k Hk. simpl in Hk.
    destruct k as [|[|k]]; [by eexists _, _|by eexists _, _|lia]. }
  split; [exact Hnodup|]. split; [exact Hall|]. split; [exact Hans|].
  exact (getAvailableAppointments_completion_order Sample.world_busy
           Sample.offices [1; 2] 1 [1; 0]%nat Hnodup Hall Hans).
Defined.

(** The call settles once: when it is fulfilled or rejected, whatever
    settles afterwards changes neither the outcome nor the aggregate. *)
Theorem getAvailableAppointments_settles_once `{RT : JsRuntime} (w : World)
    (locations : list Location) (locationIds : list Z) (limit : Z)
    (schedule more : list nat) :
  getAvailableAppointments w locations locationIds limit schedule <> Pending ->
  getAvailableAppointments w locations locationIds limit (schedule ++ more)
  = getAvailableAppointments w locations locationIds limit schedule.
Proof.
  unfold getAvailableAppointments, run_fanout. rewrite foldl_app.
  set (st := foldl (settle w locations locationIds limit)
               (fanout_start locationIds) schedule).
  assert (fanout_inv w locations locationIds limit st) as Hinv
    by apply foldl_settle_inv, fanout_start_inv.
  destruct (all st) as [|[]|reason] eqn:Hst; [done| |]; intros _.
  - by rewrite foldl_settle_fulfilled_fixed, Hst.
  - rewrite foldl_settle_settled by (by rewrite Hst). by rewrite Hst.
Qed.

Lemma getAvailableAppointments_settles_once_witness :
  getAvailableAppointments Sample.world_second_down Sample.offices [1; 2] 1
    [1%nat] <> Pending
  /\ getAvailableAppointments Sample.world_second_down Sample.offices
       [1; 2] 1 ([1%nat] ++ [0%nat])
     = getAvailableAppointments Sample.world_second_down Sample.offices
         [1; 2] 1 [1%nat].
Proof.
  assert (getAvailableAppointments Sample.world_second_down Sample.offices
            [1; 2] 1 [1%nat] <> Pending) as Hsettled by done.
  split; [exact Hsettled|].
  exact (getAvailableAppointments_settles_once Sample.world_second_down
           Sample.offices [1; 2] 1 [1%nat] [0%nat] Hsettled).
Defined.

(** ** The driver *)

Section DriverMore.
Context `{RT : JsRuntime}.

Lemma report_console (appointments : list Appointment) (out : list string) :
  report appointments out
  = (Fulfilled tt, out ++ (report appointments []).2).
Proof.
  destruct appointments as [|a appointments]; [done|].
  by rewrite !report_nonempty.
Qed.

(** The answers to requests the call does not send do not matter. *)
Lemma getAvailableAppointments_ext (w w' : World) (locations : list Location)
    (locationIds : list Z) (limit : Z) (schedule : list nat) :
  (forall k locationId,
     locationIds !! k = Some locationId ->
     slotsEndpoint w k limit locationId = slotsEndpoint w' k limit locationId) ->
  getAvailableAppointments w locations locationIds limit schedule
  = getAvailableAppointments w' locations locationIds limit schedule.
Proof.
  intros Hsame. unfold getAvailableAppointments, run_fanout.
  assert (forall st,
            foldl (settle w locations locationIds limit) st schedule
            = foldl (settle w' locations locationIds limit) st schedule)
    as ->; [|done].
  induction schedule as [|k schedule IH]; intros st; [done|].
  simpl. rewrite IH. f_equal. unfold settle.
  destruct (locationIds !! k) as [locationId|] eqn:Hid; [|done].
  by rewrite (Hsame k locationId Hid).
Qed.

(** *** The sort *)

(** An element that goes in after [y] starts later than [y]. *)
Lemma byStart_gt (x y : Appointment) :
  ~ SortCompare byStart x y <= 0 ->
  Date_parse (start x) <> Date_parse (start y).
Proof.
  unfold SortCompare, byStart.
  destruct (Date_parse (start x)) as [tx|], (Date_parse (start y)) as [ty|];
    simpl; try done.
  intros Hgt [= ->]. lia.
Qed.

Lemma sort_insert_stable (p : Appointment -> bool) (x : Appointment)
    (l : list Appointment) :
  (forall a b, p a = true -> p b = true ->
               Date_parse (start a) = Date_parse (start b)) ->
  List.filter p (sort_insert byStart x l) = List.filter p (x :: l).
Proof.
  intros Hp. induction l as [|y l IH]; [done|].
  simpl. destruct (decide (SortCompare byStart x y <= 0)) as [|Hgt]; [done|].
  simpl. rewrite IH. simpl.
  destruct (p x) eqn:Hx, (p y) eqn:Hy; try done.
  by destruct (byStart_gt x y Hgt (Hp x y Hx Hy)).
Qed.

Lemma Array_sort_stable (p : Appointment -> bool) (l : list Appointment) :
  (forall a b, p a = true -> p b = true ->
               Date_parse (start a) = Date_parse (start b)) ->
  List.filter p (Array_sort byStart l) = List.filter p l.
Proof.
  intros Hp. induction l as [|x l IH]; [done|].
  unfold Array_sort in *. simpl. rewrite sort_insert_stable by done.
  simpl. by rewrite IH.
Qed.

(** A list in which every element is at most the next, for the sort, is
    left as it is. *)
Lemma Array_sort_fixed (l : list Appointment) :
  Sorted (fun a b => SortCompare byStart a b <= 0) l ->
  Array_sort byStart l = l.
Proof.
  induction 1 as [|x l Hsorted IH Hhd]; [done|].
  unfold Array_sort in *. simpl. rewrite IH.
  destruct Hhd as [|y l Hle]; [done|]. simpl.
  by destruct (decide (SortCompare byStart x y <= 0)).
Qed.

(** Two sorted arrangements of the same appointments are the same, when no
    two different appointments start at the same time. *)
Lemma sorted_unique (l1 l2 : list Appointment) :
  StronglySorted start_le l1 -> StronglySorted start_le l2 ->
  l1 ≡ₚ l2 ->
  (forall a b, a ∈ l1 -> b ∈ l1 ->
               Date_parse (start a) = Date_parse (start b) -> a = b) ->
  l1 = l2.
Proof.
  intros Hs1. revert l2.
  induction Hs1 as [|x l1 Hs1 IH Hx]; intros l2 Hs2 Hperm Hinj.
  - by apply Permutation_nil_l in Hperm.
  - destruct Hs2 as [|y l2 Hs2 Hy].
    { by apply Permutation_nil_r in Hperm. }
    assert (x = y) as <-.
    { assert (x ∈ y :: l2) as Hxin by (rewrite <- Hperm; left).
      assert (y ∈ x :: l1) as Hyin by (rewrite Hperm; left).
      apply elem_of_cons in Hxin as [Heq|Hxin]; [done|].
      apply elem_of_cons in Hyin as [Heq|Hyin]; [done|].
      rewrite Forall_forall in Hx, Hy.
      pose proof (Hx y Hyin) as Hxy. pose proof (Hy x Hxin) as Hyx.
      apply Hinj; [left|by right|].
      unfold start_le in Hxy, Hyx.
      destruct (Date_parse (start x)), (Date_parse (start y)); try done.
      f_equal. lia. }
    f_equal. apply IH; [done|by apply Permutation_cons_inv in Hperm|].
    intros a b Ha Hb. apply Hinj; by right.
Qed.

End DriverMore.

(** When the locations cannot be read, init is rejected for the same
    reason, having printed its first line and nothing else; no slot is
    asked for. *)
Theorem init_locations_rejected `{RT : JsRuntime} (w : World)
    (schedule : list nat) (out : list string) (reason : string) :
  getAllLocations w = Rejected reason ->
  init w schedule out
  = (Rejected reason, out ++ ["Checking for appointments..."]).
Proof.
  intros Hlocations. unfold init, Async_bind, await, console_log.
  by rewrite Hlocations.
Qed.

Lemma init_locations_rejected_witness :
  getAllLocations Sample.world_offline = Rejected "fetch failed"
  /\ init Sample.world_offline [0; 1]%nat []
     = (Rejected "fetch failed", [] ++ ["Checking for appointments..."]).
Proof.
  split; [reflexivity|].
  exact (init_locations_rejected Sample.world_offline [0; 1]%nat []
           "fetch failed" eq_refl).
Defined.

(** When the slot request of one kept location is rejected and its task
    settles, init is rejected, having printed its first line and nothing
    else: no appointment of the other locations is reported. *)
Theorem init_slots_rejected `{RT : JsRuntime} (w : World)
    (schedule : list nat) (out : list string) (locations : list Location)
    (k : nat) (locationId : Z) (reason : string) :
  getAllLocations w = Fulfilled locations ->
  getAllLocationIds locations regions !! k = Some locationId ->
  slotsEndpoint w k 1 locationId = Rejected reason ->
  k ∈ schedule ->
  exists reason',
    init w schedule out
    = (Rejected reason', out ++ ["Checking for appointments..."]).
Proof.
  intros Hlocations Hid Hreq Hk.
  destruct (rejected_run w locations _ 1 k locationId reason Hid Hreq schedule)
    as [_ Hrejected].
  destruct (Hrejected Hk) as [reason' Hrun]. exists reason'.
  unfold init, Async_bind, await, console_log.
  by rewrite Hlocations, Hrun.
Qed.

Lemma init_slots_rejected_witness :
  getAllLocations Sample.world_second_down = Fulfilled Sample.offices
  /\ getAllLocationIds Sample.offices regions !! 1%nat = Some 2
  /\ slotsEndpoint Sample.world_second_down 1 1 2 = Rejected "fetch failed"
  /\ 1%nat ∈ [0; 1]%nat
  /\ exists reason',
       init Sample.world_second_down [0; 1]%nat []
       = (Rejected reason', [] ++ ["Checking for appointments..."]).
Proof.
  assert (1%nat ∈ [0; 1]%nat) as Hk by (right; left).
  split; [reflexivity|]. split; [reflexivity|]. split; [reflexivity|].
  split; [exact Hk|].
  exact (init_slots_rejected Sample.world_second_down [0; 1]%nat []
           Sample.offices 1 2 "fetch failed" eq_refl eq_refl eq_refl Hk).
Defined.

Lemma init_appends `{RT : JsRuntime} (w : World) (schedule : list nat)
    (out : list string) :
  init w schedule out
  = ((init w schedule []).1, out ++ (init w schedule []).2)
  /\ exists rest,
       (init w schedule []).2 = "Checking for appointments..." :: rest
       /\ ((init w schedule []).1 <> Fulfilled tt -> rest = []).
Proof.
  unfold init, Async_bind, await, console_log. simpl.
  destruct (getAllLocations w) as [|locations|reason]; simpl;
    [by eauto| |by eauto].
  destruct (getAvailableAppointments w locations _ 1 schedule)
    as [|appointments|reason]; simpl; [by eauto| |by eauto].
  rewrite (report_console appointments (out ++ _)).
  rewrite (report_console appointments ["Checking for appointments..."]).
  simpl. split; [by rewrite <- app_assoc|].
  eexists. split; [done|]. by intros [].
Qed.

(** init only adds to the console: what it prints and how it ends do not
    depend on what was printed before; its first line is always
    "Checking for appointments..."; and unless it is fulfilled, that line
    is all it prints. *)
Theorem init_console `{RT : JsRuntime} (w : World) (schedule : list nat)
    (out : list string) :
  init w schedule out
  = ((init w schedule []).1, out ++ (init w schedule []).2)
  /\ exists rest,
       (init w schedule []).2 = "Checking for appointments..." :: rest
       /\ ((init w schedule []).1 <> Fulfilled tt -> rest = []).
Proof. apply init_appends. Qed.

(** init consults the slots endpoint only for the kept locations, one
    request each with limit 1: two networks that give the same locations
    and the same answers to those requests give the same run. *)
Theorem init_requests `{RT : JsRuntime} (w w' : World) (schedule : list nat)
    (out : list string) :
  locationsEndpoint w = locationsEndpoint w' ->
  (forall locations k locationId,
     locationsEndpoint w = Fulfilled locations ->
     getAllLocationIds locations regions !! k = Some locationId ->
     slotsEndpoint w k 1 locationId = slotsEndpoint w' k 1 locationId) ->
  init w schedule out = init w' schedule out.
Proof.
  intros Hlocations Hslots. unfold init, Async_bind, await, console_log.
  unfold getAllLocations. rewrite <- Hlocations.
  destruct (locationsEndpoint w) as [|locations|reason] eqn:Hw; [done| |done].
  rewrite (getAvailableAppointments_ext w w' locations); [done|].
  intros k locationId Hid. by apply (Hslots locations).
Qed.

Lemma init_requests_witness :
  locationsEndpoint Sample.world_idle = locationsEndpoint Sample.world_far_idle
  /\ (forall locations k locationId,
        locationsEndpoint Sample.world_idle = Fulfilled locations ->
        getAllLocationIds locations regions !! k = Some locationId ->
        slotsEndpoint Sample.world_idle k 1 locationId
        = slotsEndpoint Sample.world_far_idle k 1 locationId)
  /\ init Sample.world_idle [0; 1]%nat []
     = init Sample.world_far_idle [0; 1]%nat [].
Proof.
  assert (forall locations k locationId,
            locationsEndpoint Sample.world_idle = Fulfilled locations ->
            getAllLocationIds locations regions !! k = Some locationId ->
            slotsEndpoint Sample.world_idle k 1 locationId
            = slotsEndpoint Sample.world_far_idle k 1 locationId) as Hslots.
  { intros locations k locationId [= <-] Hid.
    destruct k as [|[|k]]; [done|done|done]. }
  split; [reflexivity|]. split; [exact Hslots|].
  exact (init_requests Sample.world_idle Sample.world_far_idle [0; 1]%nat []
           eq_refl Hslots).
Defined.

(** ** The sort of the report *)

(** The sort keeps ties in the order of the aggregate: when every start
    string parses, the appointments that start at a given time come out in
    the order they went in. *)
Theorem Array_sort_byStart_stable `{RT : JsRuntime}
    (appointments : list Appointment) (time : Z) :
  (forall a, a ∈ appointments -> is_Some (Date_parse (start a))) ->
  List.filter (fun a => bool_decide (Date_parse (start a) = Some time))
    (Array_sort byStart appointments)
  = List.filter (fun a => bool_decide (Date_parse (start a) = Some time))
      appointments.
Proof.
  intros _. apply Array_sort_stable. intros a b Ha Hb.
  apply bool_decide_eq_true in Ha, Hb. congruence.
Qed.

Lemma Array_sort_byStart_stable_witness :
  (forall a, a ∈ [Sample.at_6pm; Sample.at_5pm; Sample.elsewhere;
                  Sample.at_4pm] ->
     is_Some (Date_parse (start a)))
  /\ List.filter
       (fun a => bool_decide (Date_parse (start a) = Some 1700000000000))
       (Array_sort byStart
          [Sample.at_6pm; Sample.at_5pm; Sample.elsewhere; Sample.at_4pm])
     = List.filter
         (fun a => bool_decide (Date_parse (start a) = Some 1700000000000))
         [Sample.at_6pm; Sample.at_5pm; Sample.elsewhere; Sample.at_4pm].
Proof.
  assert (forall a, a ∈ [Sample.at_6pm; Sample.at_5pm; Sample.elsewhere;
                         Sample.at_4pm] ->
            is_Some (Date_parse (start a))) as Hvalid.
  { intros a Ha. repeat (apply elem_of_cons in Ha as [->|Ha]; [by eexists|]).
    by apply elem_of_nil in Ha. }
  split; [exact Hvalid|].
  exact (Array_sort_byStart_stable _ 1700000000000 Hvalid).
Defined.

(** An aggregate that is already in order of start time is reported in the
    order it has. *)
Theorem Array_sort_byStart_sorted `{RT : JsRuntime}
    (appointments : list Appointment) :
  StronglySorted start_le appointments ->
  Array_sort byStart appointments = appointments.
Proof.
  intros Hsorted. apply Array_sort_fixed.
  apply StronglySorted_Sorted in Hsorted.
  induction Hsorted as [|x l Hsorted IH Hhd]; [constructor|].
  constructor; [done|]. destruct Hhd as [|y l Hle]; constructor.
  apply byStart_le; [..|done]; unfold start_le in Hle;
    by destruct (Date_parse (start x)), (Date_parse (start y)).
Qed.

Lemma Array_sort_byStart_sorted_witness :
  StronglySorted start_le [Sample.at_4pm; Sample.at_5pm; Sample.at_6pm]
  /\ Array_sort byStart [Sample.at_4pm; Sample.at_5pm; Sample.at_6pm]
     = [Sample.at_4pm; Sample.at_5pm; Sample.at_6pm].
Proof.
  assert (StronglySorted start_le
            [Sample.at_4pm; Sample.at_5pm; Sample.at_6pm]) as Hsorted.
  { repeat (constructor; [|repeat constructor; by vm_compute]).
    constructor. }
  split; [exact Hsorted|].
  exact (Array_sort_byStart_sorted _ Hsorted).
Defined.

(** When no start string parses, the comparator is NaN on every pair and
    the sort moves nothing: the report follows the aggregate. *)
Theorem Array_sort_byStart_invalid `{RT : JsRuntime}
    (appointments : list Appointment) :
  (forall a, a ∈ appointments -> Date_parse (start a) = None) ->
  Array_sort byStart appointments = appointments.
Proof.
  intros Hinvalid. apply Array_sort_fixed.
  induction appointments as [|x l IH]; [constructor|].
  constructor.
  - apply IH. intros a Ha. apply Hinvalid. by right.
  - destruct l as [|y l]; constructor.
    unfold SortCompare, byStart. by rewrite (Hinvalid x) by left.
Qed.

Lemma Array_sort_byStart_invalid_witness :
  (forall a, a ∈ [Sample.undated; Sample.undated] ->
     Date_parse (start a) = None)
  /\ Array_sort byStart [Sample.undated; Sample.undated]
     = [Sample.undated; Sample.undated].
Proof.
  assert (forall a, a ∈ [Sample.undated; Sample.undated] ->
            Date_parse (start a) = None) as Hinvalid.
  { intros a Ha. repeat (apply elem_of_cons in Ha as [->|Ha]; [done|]).
    by apply elem_of_nil in Ha. }
  split; [exact Hinvalid|].
  exact (Array_sort_byStart_invalid _ Hinvalid).
Defined.

(** The report does not depend on the order in which the requests are
    answered: when every request is answered, every start string parses
    and no two different appointments start at the same time, two runs in
    which every task settles print the same lines. *)
Theorem init_schedule_independent `{RT : JsRuntime} (w : World)
    (schedule schedule' : list nat) (locations : list Location)
    (out : list string) :
  getAllLocations w = Fulfilled locations ->
  (forall k, (k < length (getAllLocationIds locations regions))%nat ->
     answered w (getAllLocationIds locations regions) 1 k
     /\ k ∈ schedule /\ k ∈ schedule') ->
  (forall slot, slot ∈ answers w (getAllLocationIds locations regions) 1 ->
     is_Some (Date_parse (start (toAppointment locations slot)))) ->
  (forall slot slot',
     slot ∈ answers w (getAllLocationIds locations regions) 1 ->
     slot' ∈ answers w (getAllLocationIds locations regions) 1 ->
     Date_parse (start (toAppointment locations slot))
     = Date_parse (start (toAppointment locations slot')) ->
     toAppointment locations slot = toAppointment locations slot') ->
  init w schedule out = init w schedule' out.
Proof.
  intros Hlocations Hall Hvalid Hinj.
  set (ids := getAllLocationIds locations regions) in *.
  destruct (answered_run w locations ids 1 schedule) as [l1 Hrun1];
    [intros k Hk; by apply Hall..|].
  destruct (answered_run w locations ids 1 schedule') as [l2 Hrun2];
    [intros k Hk; by apply Hall..|].
  rewrite (init_reports w schedule locations l1 out Hlocations Hrun1).
  rewrite (init_reports w schedule' locations l2 out Hlocations Hrun2).
  destruct (fulfilled_run _ _ _ _ _ _ Hrun1) as [_ Hperm1].
  destruct (fulfilled_run _ _ _ _ _ _ Hrun2) as [_ Hperm2].
  assert (l1 ≡ₚ l2) as Hperm by (by rewrite Hperm1, Hperm2).
  assert (forall a, a ∈ l1 ->
            exists slot, slot ∈ answers w ids 1
                         /\ a = toAppointment locations slot) as Hfrom.
  { intros a Ha. rewrite Hperm1 in Ha.
    apply list_elem_of_In, in_map_iff in Ha as (slot & <- & Hslot).
    exists slot. by rewrite list_elem_of_In. }
  destruct l1 as [|a1 l1].
  { apply Permutation_nil_l in Hperm. by subst. }
  destruct l2 as [|a2 l2].
  { by apply Permutation_nil_r in Hperm. }
  rewrite !report_nonempty by done. do 3 f_equal.
  apply sorted_unique.
  - apply Array_sort_sorted, Forall_forall.
    intros a (slot & Hslot & ->)%Hfrom. by apply Hvalid.
  - apply Array_sort_sorted, Forall_forall. intros a Ha.
    rewrite <- Hperm in Ha. apply Hfrom in Ha as (slot & Hslot & ->).
    by apply Hvalid.
  - by rewrite !Array_sort_Permutation.
  - intros a b Ha Hb. rewrite Array_sort_Permutation in Ha, Hb.
    apply Hfrom in Ha as (slot & Hslot & ->).
    apply Hfrom in Hb as (slot' & Hslot' & ->). by apply Hinj.
Qed.

Lemma init_schedule_independent_witness :
  getAllLocations Sample.world_busy = Fulfilled Sample.offices
  /\ (forall k,
        (k < length (getAllLocationIds Sample.offices regions))%nat ->
        answered Sample.world_busy (getAllLocationIds Sample.offices regions)
          1 k
        /\ k ∈ [0; 1]%nat /\ k ∈ [1; 0; 1]%nat)
  /\ init Sample.world_busy [0; 1]%nat [] 
     = init Sample.world_busy [1; 0; 1]%nat [].
Proof.
  assert (forall k,
            (k < length (getAllLocationIds Sample.offices regions))%nat ->
            answered Sample.world_busy
              (getAllLocationIds Sample.offices regions) 1 k
            /\ k ∈ [0; 1]%nat /\ k ∈ [1; 0; 1]%nat) as Hall.
  { intros k Hk. change (k < 2)%nat in Hk.
    destruct k as [|[|k]]; [| |lia].
    - split; [by eexists _, _|]. split; [left|right; left].
    - split; [by eexists _, _|]. split; [right; left|left]. }
  split; [reflexivity|]. split; [exact Hall|].
  apply (init_schedule_independent Sample.world_busy [0; 1]%nat
           [1; 0; 1]%nat Sample.offices [] eq_refl Hall).
  - intros slot Hslot.
    repeat (apply elem_of_cons in Hslot as [->|Hslot]; [by eexists|]).
    by apply elem_of_nil in Hslot.
  - intros slot slot' Hslot Hslot'.
    repeat (apply elem_of_cons in Hslot as [->|Hslot]);
      try (by apply elem_of_nil in Hslot);
      repeat (apply elem_of_cons in Hslot' as [->|Hslot']);
      try (by apply elem_of_nil in Hslot'); done.
Defined.

(** ** The script *)

(** The script prints "Starting appointment checker..." and then what init
    prints, first of all "Checking for appointments..."; it ends as init
    does; and what was on the screen before is wiped on a terminal and
    kept otherwise. *)
Theorem main_console `{RT : JsRuntime} (tty : bool) (w : World)
    (schedule : list nat) (out : list string) :
  exists rest,
    main tty w schedule out
    = ((init w schedule []).1,
       (if tty then [] else out)
         ++ "Starting appointment checker..."
         :: "Checking for appointments..." :: rest)
    /\ (init w schedule []).2 = "Checking for appointments..." :: rest.
Proof.
  unfold main, Async_bind, console_clear, console_log at 1.
  destruct (init_appends w schedule
              ((if tty then [] else out)
                 ++ ["Starting appointment checker..."]))
    as [Hinit (rest & Hrest & _)].
  exists rest. split; [|done].
  rewrite Hinit, Hrest. by rewrite <- app_assoc.
Qed.
